(** * A model of the [background] package (github.com/lefelys/background)

    The package composes lifecycle signals of long-lived jobs in a tree:
    errors, keyed values and graceful shutdown.  This development embeds
    the data model and the operations of the package and proves the
    properties its specification states about them.

    Channels of type [chan struct{}] are only ever closed and received
    from, so a channel is modelled by an identifier and the store records
    which channels have been closed.  Pointers to mutable fields (the [err]
    field of [errBackground], the [toClose] map of [group]) are locations
    of the same store. *)

From stdpp Require Import base decidable option list strings gmap.

Set Warnings "-register-all".
Open Scope string_scope.
Open Scope list_scope.

(** ** Go values *)

(** *** Interface values

    Keys and values of [WithValue] have type [interface{}], and an [error]
    is an interface value too: nil, or a dynamic type together with a datum
    of that type.  [TInt] stands for the integer kinds, [TFloat64] for the
    floating-point kinds and [TComplex128] for the complex kinds. *)
Inductive gotype : Type :=
  | TBool | TInt | TFloat64 | TComplex128 | TString | TPointer | TChan | TInterface
  | TFunc
  | TSlice (elem : gotype)
  | TMap (key elem : gotype)
  | TArray (len : nat) (elem : gotype)
  | TStruct (fields : list gotype)
  | TNamed (name : string) (underlying : gotype).

(** [reflect.Type.Comparable]: functions, slices and maps are not
    comparable; arrays and structs are when their components are. *)
Fixpoint Comparable (t : gotype) : bool :=
  match t with
  | TFunc | TSlice _ | TMap _ _ => false
  | TArray _ elem => Comparable elem
  | TStruct fields => forallb Comparable fields
  | TNamed _ u => Comparable u
  | TBool | TInt | TFloat64 | TComplex128 | TString | TPointer | TChan
  | TInterface => true
  end.

(** The type under the names of a defined type. *)
Fixpoint underlying (t : gotype) : gotype :=
  match t with
  | TNamed _ u => underlying u
  | _ => t
  end.

(** Data.  A [float64] is its IEEE 754 bit pattern and a [complex128] the
    two patterns of its parts; pointers and channels, and also functions,
    slices and maps, are the address they refer to; a struct or an array is
    the tuple of its fields or elements; a field or element of interface
    type is nil, or a dynamic type with its datum. *)
Inductive datum : Type :=
  | DBool (b : bool)
  | DInt (z : Z)
  | DFloat (bits : Z)
  | DComplex (re im : Z)
  | DString (s : string)
  | DRef (addr : nat)
  | DNil
  | DIface (t : gotype) (d : datum)
  | DTuple (ds : list datum).

Fixpoint gotype_eqb (a b : gotype) {struct a} : bool :=
  match a, b with
  | TBool, TBool | TInt, TInt | TFloat64, TFloat64 | TComplex128, TComplex128
  | TString, TString | TPointer, TPointer
  | TChan, TChan | TInterface, TInterface | TFunc, TFunc => true
  | TSlice x, TSlice y => gotype_eqb x y
  | TMap k x, TMap k' y => gotype_eqb k k' && gotype_eqb x y
  | TArray n x, TArray m y => bool_decide (n = m) && gotype_eqb x y
  | TStruct fs, TStruct gs =>
      (fix all2 (l : list gotype) (r : list gotype) : bool :=
         match l, r with
         | [], [] => true
         | x :: l', y :: r' => gotype_eqb x y && all2 l' r'
         | _, _ => false
         end) fs gs
  | TNamed n u, TNamed m v => bool_decide (n = m) && gotype_eqb u v
  | _, _ => false
  end.

(** [==] on [float64]: a NaN (exponent bits all ones, fraction not zero)
    equals nothing, itself included; the two zeros are equal; any other
    two numbers are equal when their bit patterns are. *)
Definition f64_bits (b : Z) : Z := Z.land b (Z.ones 64).

Definition f64_nan (b : Z) : bool :=
  (Z.land (Z.shiftr (f64_bits b) 52) (Z.ones 11) =? Z.ones 11)%Z
  && negb (Z.land (f64_bits b) (Z.ones 52) =? 0)%Z.

Definition f64_zero (b : Z) : bool := (Z.land b (Z.ones 63) =? 0)%Z.

Definition f64_eqb (a b : Z) : bool :=
  negb (f64_nan a) && negb (f64_nan b)
  && ((f64_zero a && f64_zero b) || (f64_bits a =? f64_bits b)%Z).

Arguments f64_bits : simpl never.
Arguments f64_nan : simpl never.
Arguments f64_zero : simpl never.
Arguments f64_eqb : simpl never.

(** [x == y] on two data of the type [t]; [None] is the run-time panic
    "comparing uncomparable type".  Structs and arrays are compared
    component by component in source order, and the comparison stops at
    the first two components that differ.  Two interface components are
    equal when both are nil or when their dynamic types are identical and
    their data equal; with identical dynamic types that are not comparable
    the comparison panics. *)
Fixpoint data_eq (t : gotype) (d1 d2 : datum) {struct d1} : option bool :=
  match underlying t, d1, d2 with
  | TBool, DBool a, DBool b => Some (bool_decide (a = b))
  | TInt, DInt a, DInt b => Some (a =? b)%Z
  | TFloat64, DFloat a, DFloat b => Some (f64_eqb a b)
  | TComplex128, DComplex a b, DComplex c d => Some (f64_eqb a c && f64_eqb b d)
  | TString, DString a, DString b => Some (bool_decide (a = b))
  | TPointer, DRef a, DRef b | TChan, DRef a, DRef b => Some (a =? b)%nat
  | TInterface, DNil, DNil => Some true
  | TInterface, DIface t1 x1, DIface t2 x2 =>
      if gotype_eqb t1 t2 then
        if Comparable t1 then data_eq t1 x1 x2 else None
      else Some false
  | TArray _ elem, DTuple xs, DTuple ys =>
      (fix all (xs ys : list datum) {struct xs} : option bool :=
         match xs, ys with
         | [], [] => Some true
         | x :: xs', y :: ys' =>
             match data_eq elem x y with
             | Some true => all xs' ys'
             | r => r
             end
         | _, _ => Some false
         end) xs ys
  | TStruct fields, DTuple xs, DTuple ys =>
      (fix all (fields : list gotype) (xs ys : list datum) {struct xs}
           : option bool :=
         match xs, fields, ys with
         | [], [], [] => Some true
         | x :: xs', f :: fields', y :: ys' =>
             match data_eq f x y with
             | Some true => all fields' xs' ys'
             | r => r
             end
         | _, _, _ => Some false
         end) fields xs ys
  | TFunc, _, _ | TSlice _, _, _ | TMap _ _, _, _ => None
  | _, _, _ => Some false
  end.

Record iface : Type := Iface { dyn_type : gotype; dyn_data : datum }.

(** A value of type [interface{}]; [None] is the nil interface. *)
Definition any : Type := option iface.

(** [a == b] on interface values: both nil, or identical dynamic types and
    equal data; [None] is the run-time panic of a comparison that meets two
    values of one type that is not comparable. *)
Definition any_eq (a b : any) : option bool :=
  match a, b with
  | None, None => Some true
  | Some x, Some y =>
      if gotype_eqb (dyn_type x) (dyn_type y) then
        if Comparable (dyn_type x) then
          data_eq (dyn_type x) (dyn_data x) (dyn_data y)
        else None
      else Some false
  | _, _ => Some false
  end.

(** What a call that may panic gives. *)
Inductive answer : Type :=
  | Returns (v : any)
  | Panics.

(** *** Errors

    The package creates errors in two ways: [errors.New], which returns a
    pointer to a fresh [errorString], and [fmt.Errorf] with the [%w] verb,
    which returns a pointer to a fresh [wrapError] holding the formatted
    message and the wrapped error; both carry the address of their
    allocation.  The errors that jobs hand to [WithError] and to [Error]
    may have any other dynamic type: [jobError] is a value of such a type
    with the text its [Error] method returns, and [jobWrapper] a value of a
    type that has an [Unwrap] method as well, with the error that method
    returns.  An [Is] method of a job's type is not represented.  A nil
    [error] is [None]. *)
Inductive error : Type :=
  | errorString (addr : nat) (s : string)
  | wrapError (addr : nat) (msg : string) (err : error)
  | jobError (v : iface) (msg : string)
  | jobWrapper (v : iface) (msg : string) (err : error).

(** The [Error() string] method. *)
Definition error_Error (e : error) : string :=
  match e with
  | errorString _ s => s
  | wrapError _ msg _ | jobError _ msg | jobWrapper _ msg _ => msg
  end.

(** The [Unwrap() error] method ([errors.Unwrap]). *)
Definition Unwrap (e : error) : option error :=
  match e with
  | wrapError _ _ err | jobWrapper _ _ err => Some err
  | errorString _ _ | jobError _ _ => None
  end.

(** The errors that are pointers made by [errors.New] or [fmt.Errorf]. *)
Definition is_pointer (e : error) : bool :=
  match e with
  | errorString _ _ | wrapError _ _ _ => true
  | jobError _ _ | jobWrapper _ _ _ => false
  end.

(** [reflectlite.TypeOf(err).Comparable()]: the two pointer types are
    comparable; a job's error is when its dynamic type is. *)
Definition error_Comparable (e : error) : bool :=
  match e with
  | errorString _ _ | wrapError _ _ _ => true
  | jobError v _ | jobWrapper v _ _ => Comparable (dyn_type v)
  end.

(** [err == target] on two non-nil errors: pointers of one type are equal
    when they are the same allocation, values of a job's types are compared
    as interface values, and values of different dynamic types differ. *)
Definition error_eq (err target : error) : option bool :=
  match err, target with
  | errorString a _, errorString b _ => Some (a =? b)%nat
  | wrapError a _ _, wrapError b _ _ => Some (a =? b)%nat
  | jobError v _, jobError w _ | jobError v _, jobWrapper w _ _
  | jobWrapper v _ _, jobError w _ | jobWrapper v _ _, jobWrapper w _ _ =>
      any_eq (Some v) (Some w)
  | _, _ => Some false
  end.

(** [errors.Is(err, target)] for non-nil [err] and [target]:
    [[
      isComparable := reflectlite.TypeOf(target).Comparable()
      for {
        if isComparable && err == target { return true }
        if err = Unwrap(err); err == nil { return false }
      }
    ]]
    The loop's test for an [Is] method of [err] is left out, as no error
    type here has one.  [None] is the panic of [==]. *)
Fixpoint errors_Is (err target : error) : option bool :=
  match (if error_Comparable target then error_eq err target else Some false) with
  | Some true => Some true
  | Some false =>
      match err with
      | wrapError _ _ inner | jobWrapper _ _ inner => errors_Is inner target
      | errorString _ _ | jobError _ _ => Some false
      end
  | None => None
  end.

(** [fmt.Errorf("%s: %w", annotation, err)], allocated at [addr]. *)
Definition Errorf_annot (addr : nat) (annotation : string) (err : error) : error :=
  wrapError addr (annotation +:+ ": " +:+ error_Error err) err.

(** The number of wrappers on top of an error. *)
Fixpoint wraps (e : error) : nat :=
  match e with
  | wrapError _ _ inner => S (wraps inner)
  | errorString _ _ | jobError _ _ | jobWrapper _ _ _ => 0
  end.

(** [var ErrTimeout = errors.New("timeout expired")]; the package-level
    variable is the allocation at address 0. *)
Definition ErrTimeout : error := errorString 0 "timeout expired".

(** ** The store *)

Definition chan : Type := nat.
Definition loc : Type := nat.

(** [closedchan] is closed by the package's [init]. *)
Definition closedchan : chan := 0.

Record store : Type := Store {
  closed_chans : gset nat;        (* channels on which close() has run *)
  maps : gmap nat (gset nat);     (* key sets of the toClose maps *)
  errs : gmap nat error;          (* err fields; an absent entry is nil *)
  next : nat                      (* next unused channel or location *)
}.

(** [select { case <-c: ...; default: ... }] takes the first branch
    exactly when [c] has been closed. *)
Definition is_closed (σ : store) (c : chan) : bool :=
  bool_decide (c = closedchan) || bool_decide (c ∈ closed_chans σ).

(** ** Backgrounds *)

(** [type group struct]: the children kept by [merge], the map of indices
    still owing a close, and the two one-shot signals.  The lazily built
    [ready] channel and the mutex play no part in what is proved here. *)
Record group_ (B : Type) : Type := Group {
  backgrounds : list B;
  toClose : option loc;
  done : chan;
  finished : chan
}.
Arguments Group {B} _ _ _ _.
Arguments backgrounds {B} _.
Arguments toClose {B} _.
Arguments done {B} _.
Arguments finished {B} _.

(** The implementations of the [Background] interface.  Every kind except
    [emptyBackground] and [dependBackground] embeds a [*group]. *)
Inductive Background : Type :=
  | emptyBackground
  | groupBackground (g : group_ Background)
  | dependBackground (children : group_ Background) (parent : Background)
                     (dfinished : chan)
  | shutdownBackground (g : group_ Background) (end_ : chan) (sdone : chan)
  | waitBackground (g : group_ Background) (wg : loc)
  | readinessBackground (g : group_ Background) (ready : chan)
  | valueBackground (g : group_ Background) (key : any) (value : any)
  | annotationBackground (g : group_ Background) (annotation : string)
  | errBackground (g : group_ Background) (err : loc)
  | errGroupBackground (g : group_ Background) (err : loc).

Abbreviation group := (group_ Background).

(** The [*group] a node embeds, if any. *)
Definition embedded (b : Background) : option group :=
  match b with
  | emptyBackground | dependBackground _ _ _ => None
  | groupBackground g | shutdownBackground g _ _ | waitBackground g _
  | readinessBackground g _ | valueBackground g _ _
  | annotationBackground g _ | errBackground g _ | errGroupBackground g _ => Some g
  end.

(** [finishSig()]. *)
Definition finishSig (b : Background) : chan :=
  match b with
  | emptyBackground => closedchan
  | dependBackground _ _ f => f
  | shutdownBackground _ _ d => d
  | groupBackground g | waitBackground g _ | readinessBackground g _
  | valueBackground g _ _ | annotationBackground g _
  | errBackground g _ | errGroupBackground g _ => finished g
  end.

(** ** Queries: [Err], [Value], [cause] *)

Section FirstNonNil.
Context {A B : Type} (f : A → option B).

(** The loop
    [for _, bg := range bgs { if r := f(bg); r != nil { return r } }; return nil]. *)
Fixpoint first_non_nil (bgs : list A) : option B :=
  match bgs with
  | [] => None
  | bg :: rest =>
      match f bg with
      | Some r => Some r
      | None => first_non_nil rest
      end
  end.
End FirstNonNil.

(** The same loop over calls that may panic: a panic ends it. *)
Fixpoint first_value {A : Type} (f : A → answer) (bgs : list A) : answer :=
  match bgs with
  | [] => Returns None
  | bg :: rest =>
      match f bg with
      | Returns None => first_value f rest
      | r => r
      end
  end.

(** [fmt.Errorf] allocates the wrapper it returns.  A query does not
    record its allocations in the store: the allocator hands out [next σ]
    and the addresses above it, and the wrapper a query makes around [err]
    in the store [σ] is placed above the wrappers that the same call has
    made below it. *)
Definition fresh_wrapper (σ : store) (err : error) : nat := next σ + wraps err.

Section Queries.
Variable σ : store.

Fixpoint Err (b : Background) : option error :=
  match b with
  | emptyBackground => None
  | groupBackground g | shutdownBackground g _ _ | waitBackground g _
  | readinessBackground g _ | valueBackground g _ _ =>
      first_non_nil Err (backgrounds g)
  | dependBackground children parent _ =>
      match Err parent with
      | Some err => Some err
      | None => first_non_nil Err (backgrounds children)
      end
  | annotationBackground g a =>
      match first_non_nil Err (backgrounds g) with
      | Some err => Some (Errorf_annot (fresh_wrapper σ err) a err)
      | None => None
      end
  | errBackground _ l | errGroupBackground _ l => errs σ !! l
  end.

Definition group_Err (g : group) : option error :=
  first_non_nil Err (backgrounds g).

(** [Value(key)]; the comparison [e.key == key] of a value leaf may
    panic. *)
Fixpoint Value (b : Background) (k : any) : answer :=
  match b with
  | emptyBackground => Returns None
  | groupBackground g | shutdownBackground g _ _ | waitBackground g _
  | readinessBackground g _ | annotationBackground g _
  | errBackground g _ | errGroupBackground g _ =>
      first_value (λ bg, Value bg k) (backgrounds g)
  | dependBackground children parent _ =>
      match Value parent k with
      | Returns None => first_value (λ bg, Value bg k) (backgrounds children)
      | r => r
      end
  | valueBackground g key value =>
      match any_eq key k with
      | Some true => Returns value
      | Some false => first_value (λ bg, Value bg k) (backgrounds g)
      | None => Panics
      end
  end.

Definition group_Value (g : group) (k : any) : answer :=
  first_value (λ bg, Value bg k) (backgrounds g).

Fixpoint cause (b : Background) : option error :=
  match b with
  | emptyBackground => None
  | groupBackground g | waitBackground g _ | readinessBackground g _
  | valueBackground g _ _ | errBackground g _ | errGroupBackground g _ =>
      first_non_nil cause (backgrounds g)
  | dependBackground children parent _ =>
      match first_non_nil cause (backgrounds children) with
      | Some err => Some err
      | None => cause parent
      end
  | shutdownBackground g _ d =>
      match first_non_nil cause (backgrounds g) with
      | Some err => Some err
      | None => if is_closed σ d then None else Some ErrTimeout
      end
  | annotationBackground g a =>
      match first_non_nil cause (backgrounds g) with
      | Some err => Some (Errorf_annot (fresh_wrapper σ err) a err)
      | None => None
      end
  end.

Definition group_cause (g : group) : option error :=
  first_non_nil cause (backgrounds g).
End Queries.

(** ** Goroutine bodies

    The blocking methods ([close], [Done], [Ok]) only close channels,
    receive from them, take a mutex around a [select], start goroutines and
    call [close] on other nodes.  Their bodies are written as sequences of
    these statements.  Every [close(c)] that a [select] on [c] guards runs
    with the [select] under the mutex of the node that owns [c], so a
    critical section is a statement that no other goroutine interleaves
    with; the mutex itself is not represented. *)
Inductive instr : Type :=
  | IClose (c : chan)                              (* close(c) *)
  | IRecv (c : chan)                               (* <-c *)
  | ISelect (c : chan) (ready dflt : list instr)   (* select { case <-c: ready; default: dflt } *)
  | IReturn                                        (* return *)
  | ILocked (body : list instr)                    (* mu.Lock(); body; mu.Unlock() *)
  | IGo (body : list instr)                        (* go func() { body }() *)
  | ICallGroup (g : group)                         (* g.close() on a *group *)
  | ICall (b : Background)                         (* b.close() on a Background *)
  | IRange (g : group)                             (* the for-range loop of group.close *)
  | IDelete (m : loc) (i : nat).                   (* delete(g.toClose, i) *)

(** [func (g *group) close()]. *)
Definition group_close (g : group) : list instr :=
  [ ILocked [ISelect (done g) [IReturn] [IClose (done g)]];
    IRange g;
    IClose (finished g) ].

(** The body shared by [dependBackground.Done], [shutdownBackground.Done]
    and [readinessBackground.Ok]:
    [mu.Lock(); defer mu.Unlock(); select { case <-c: default: close(c) }]. *)
Definition fire_once (c : chan) : list instr :=
  [ ILocked [ISelect c [] [IClose c]] ].

(** [func (s *shutdownBackground) Done()] on the leaf whose [done] channel
    is [d]. *)
Definition shutdownBackground_Done (d : chan) : list instr := fire_once d.

(** [func (d *dependBackground) Done()] *)
Definition dependBackground_Done (f : chan) : list instr := fire_once f.


(** The [close()] method of each implementation; the kinds that embed a
    [*group] without overriding [close] inherit [group.close]. *)
Definition close (b : Background) : list instr :=
  match b with
  | emptyBackground => []
  | dependBackground children parent f =>
      [ ICallGroup children; IRecv (finished children);
        ICall parent; IRecv (finishSig parent) ] ++ dependBackground_Done f
  | shutdownBackground g e _ =>
      [ IGo [ICallGroup g]; IRecv (finished g);
        ILocked [ISelect e [IReturn] [IClose e]] ]
  | groupBackground g | waitBackground g _ | readinessBackground g _
  | valueBackground g _ _ | annotationBackground g _
  | errBackground g _ | errGroupBackground g _ => group_close g
  end.

(** [addToCloseStream(done, c)] starts [go func() { <-done; c.close() }()]. *)
Definition close_stream (done : chan) (c : Background) : list instr :=
  [ IRecv done; ICall c ].

(** ** Store updates *)

Definition close_chan (c : chan) (σ : store) : store :=
  Store ({[c]} ∪ closed_chans σ) (maps σ) (errs σ) (next σ).

(** The key set of the map at [m]. *)
Definition tracked (σ : store) (m : loc) : gset nat :=
  default ∅ (maps σ !! m).

Definition delete_key (m : loc) (i : nat) (σ : store) : store :=
  Store (closed_chans σ) (<[m := tracked σ m ∖ {[i]}]> (maps σ)) (errs σ) (next σ).

Definition insert_key (m : loc) (i : nat) (σ : store) : store :=
  Store (closed_chans σ) (<[m := {[i]} ∪ tracked σ m]> (maps σ)) (errs σ) (next σ).

(** What other goroutines may do to the store between two statements of
    the goroutine under observation: anything, except that a closed channel
    stays closed. *)
Definition grows (σ σ' : store) : Prop :=
  closed_chans σ ⊆ closed_chans σ'.

(** ** Executions *)

Inductive outcome : Type :=
  | Finished (σ : store)            (* ran to the end of the body *)
  | Returned (σ : store)            (* left the body through return *)
  | Blocked (c : chan) (σ : store)  (* waits on c, which is not closed *)
  | Panicked (msg : string).

(** The store a completed call leaves behind. *)
Definition completes (o : outcome) : option store :=
  match o with
  | Finished σ | Returned σ => Some σ
  | Blocked _ _ | Panicked _ => None
  end.

(** The store an execution ends in, when it has not panicked. *)
Definition last_store (o : outcome) : option store :=
  match o with
  | Finished σ | Returned σ | Blocked _ σ => Some σ
  | Panicked _ => None
  end.

(** What an execution did, each step with the store it ran in.  A call
    carries the steps of the callee; a [go] statement carries one run of
    the goroutine it started and how that run ended. *)
Inductive event : Type :=
  | EClose (c : chan) (σ : store)
  | ERecv (c : chan) (σ : store)
  | EDelete (m : loc) (i : nat) (σ : store)
  | ECallGroup (g : group) (σ : store) (sub : list event)
  | ECall (b : Background) (σ : store) (sub : list event)
  | EGo (body : list instr) (σ : store) (sub : list event) (o : outcome).

(** [exec atomic σ p t o]: started in [σ], the statements [p] perform the
    steps [t] and end as [o].  Outside a critical section
    ([atomic = false]) other goroutines may change the store before every
    statement. *)
Inductive exec : bool → store → list instr → list event → outcome → Prop :=
  | exec_nil a σ :
      exec a σ [] [] (Finished σ)
  | exec_env σ σ' p t o :
      grows σ σ' →
      exec false σ' p t o →
      exec false σ p t o
  | exec_close a σ c p t o :
      is_closed σ c = false →
      exec a (close_chan c σ) p t o →
      exec a σ (IClose c :: p) (EClose c σ :: t) o
  | exec_close_panic a σ c p :
      is_closed σ c = true →
      exec a σ (IClose c :: p) [] (Panicked "close of closed channel")
  | exec_recv a σ c p t o :
      is_closed σ c = true →
      exec a σ p t o →
      exec a σ (IRecv c :: p) (ERecv c σ :: t) o
  | exec_recv_block a σ c p :
      is_closed σ c = false →
      exec a σ (IRecv c :: p) [] (Blocked c σ)
  | exec_select_ready a σ c r d p t o :
      is_closed σ c = true →
      exec a σ (r ++ p) t o →
      exec a σ (ISelect c r d :: p) t o
  | exec_select_default a σ c r d p t o :
      is_closed σ c = false →
      exec a σ (d ++ p) t o →
      exec a σ (ISelect c r d :: p) t o
  | exec_return a σ p :
      exec a σ (IReturn :: p) [] (Returned σ)
  | exec_locked a σ body p t1 σ1 t2 o :
      exec true σ body t1 (Finished σ1) →
      exec a σ1 p t2 o →
      exec a σ (ILocked body :: p) (t1 ++ t2) o
  | exec_locked_abort a σ body p t1 o1 :
      exec true σ body t1 o1 →
      (∀ σ1, o1 ≠ Finished σ1) →
      exec a σ (ILocked body :: p) t1 o1
  | exec_go a σ σg body tg og p t o :
      grows σ σg →
      exec false σg body tg og →
      exec a σ p t o →
      exec a σ (IGo body :: p) (EGo body σg tg og :: t) o
  | exec_call_group a σ g sub o1 σ1 p t o :
      exec a σ (group_close g) sub o1 →
      completes o1 = Some σ1 →
      exec a σ1 p t o →
      exec a σ (ICallGroup g :: p) (ECallGroup g σ sub :: t) o
  | exec_call_group_abort a σ g sub o1 p :
      exec a σ (group_close g) sub o1 →
      completes o1 = None →
      exec a σ (ICallGroup g :: p) [ECallGroup g σ sub] o1
  | exec_call a σ b sub o1 σ1 p t o :
      exec a σ (close b) sub o1 →
      completes o1 = Some σ1 →
      exec a σ1 p t o →
      exec a σ (ICall b :: p) (ECall b σ sub :: t) o
  | exec_call_abort a σ b sub o1 p :
      exec a σ (close b) sub o1 →
      completes o1 = None →
      exec a σ (ICall b :: p) [ECall b σ sub] o1
  | exec_range_nil a σ g p t o :
      toClose g = None →
      exec a σ p t o →
      exec a σ (IRange g :: p) t o
  | exec_range_done a σ g m p t o :
      toClose g = Some m →
      tracked σ m = ∅ →
      exec a σ p t o →
      exec a σ (IRange g :: p) t o
  | exec_range_index a σ g m i p :
      toClose g = Some m →
      i ∈ tracked σ m →
      backgrounds g !! i = None →
      exec a σ (IRange g :: p) [] (Panicked "index out of range")
  | exec_range_iter a σ g m i b p t o :
      toClose g = Some m →
      i ∈ tracked σ m →
      backgrounds g !! i = Some b →
      exec a σ (IRecv (finishSig b) :: ILocked [IDelete m i] :: IRange g :: p) t o →
      exec a σ (IRange g :: p) t o
  | exec_delete a σ m i p t o :
      exec a (delete_key m i σ) p t o →
      exec a σ (IDelete m i :: p) (EDelete m i σ :: t) o.

(** An interpreter for one goroutine that nobody interferes with: the
    range loop visits the least remaining key first, and a goroutine it
    starts is run from the store of the [go] statement.  [None] means the
    fuel ran out. *)
Fixpoint run (n : nat) (σ : store) (p : list instr) : option (list event * outcome) :=
  match n with
  | 0 => None
  | S n =>
      match p with
      | [] => Some ([], Finished σ)
      | IClose c :: p =>
          if is_closed σ c then Some ([], Panicked "close of closed channel")
          else '(t, o) ← run n (close_chan c σ) p; Some (EClose c σ :: t, o)
      | IRecv c :: p =>
          if is_closed σ c then '(t, o) ← run n σ p; Some (ERecv c σ :: t, o)
          else Some ([], Blocked c σ)
      | ISelect c r d :: p =>
          if is_closed σ c then run n σ (r ++ p) else run n σ (d ++ p)
      | IReturn :: _ => Some ([], Returned σ)
      | ILocked body :: p =>
          '(t1, o1) ← run n σ body;
          match o1 with
          | Finished σ1 => '(t2, o) ← run n σ1 p; Some (t1 ++ t2, o)
          | _ => Some (t1, o1)
          end
      | IGo body :: p =>
          '(tg, og) ← run n σ body;
          '(t, o) ← run n σ p;
          Some (EGo body σ tg og :: t, o)
      | ICallGroup g :: p =>
          '(sub, o1) ← run n σ (group_close g);
          match completes o1 with
          | Some σ1 => '(t, o) ← run n σ1 p; Some (ECallGroup g σ sub :: t, o)
          | None => Some ([ECallGroup g σ sub], o1)
          end
      | ICall b :: p =>
          '(sub, o1) ← run n σ (close b);
          match completes o1 with
          | Some σ1 => '(t, o) ← run n σ1 p; Some (ECall b σ sub :: t, o)
          | None => Some ([ECall b σ sub], o1)
          end
      | IRange g :: p =>
          match toClose g with
          | None => run n σ p
          | Some m =>
              match elements (tracked σ m) with
              | [] => run n σ p
              | i :: _ =>
                  match backgrounds g !! i with
                  | None => Some ([], Panicked "index out of range")
                  | Some b =>
                      run n σ (IRecv (finishSig b) :: ILocked [IDelete m i] :: IRange g :: p)
                  end
              end
          end
      | IDelete m i :: p =>
          '(t, o) ← run n (delete_key m i σ) p; Some (EDelete m i σ :: t, o)
      end
  end.

(** ** Constructors

    Constructors allocate channels and maps, read the store and start
    goroutines; [withValue] may panic. *)
Record world : Type := World {
  w_store : store;
  w_pool : list (list instr)      (* bodies of the goroutines started so far *)
}.

Inductive result (A : Type) : Type :=
  | Ok (a : A) (w : world)
  | Panic (msg : string).
Arguments Ok {A} _ _.
Arguments Panic {A} _.

Definition M (A : Type) : Type := world → result A.

#[global] Instance M_ret : MRet M := λ A a w, Ok a w.
#[global] Instance M_bind : MBind M := λ A B f m w,
  match m w with
  | Ok a w' => f a w'
  | Panic msg => Panic msg
  end.

Definition panic {A} (msg : string) : M A := λ _, Panic msg.
Definition get_store : M store := λ w, Ok (w_store w) w.
Definition modify_store (f : store → store) : M unit :=
  λ w, Ok tt (World (f (w_store w)) (w_pool w)).

(** [go func() { body }()] *)
Definition go (body : list instr) : M unit :=
  λ w, Ok tt (World (w_store w) (w_pool w ++ [body])).

Definition bump (σ : store) : store :=
  Store (closed_chans σ) (maps σ) (errs σ) (S (next σ)).

(** [make(chan struct{})] *)
Definition make_chan : M chan :=
  σ ← get_store; modify_store bump;; mret (next σ).

(** [make(map[int]struct{})] *)
Definition make_map : M loc :=
  σ ← get_store;
  modify_store (λ σ, bump (Store (closed_chans σ) (<[next σ := ∅]> (maps σ)) (errs σ) (next σ)));;
  mret (next σ).

(** A new [err] field holding [err]. *)
Definition new_err (err : option error) : M loc :=
  σ ← get_store;
  modify_store (λ σ, bump (Store (closed_chans σ) (maps σ)
                             (match err with
                              | Some e => <[next σ := e]> (errs σ)
                              | None => delete (next σ) (errs σ)
                              end) (next σ)));;
  mret (next σ).

(** A new [sync.WaitGroup]. *)
Definition new_waitgroup : M loc :=
  σ ← get_store; modify_store bump;; mret (next σ).

(** The loop of [merge]: [i] is the index into the argument list, [ss] the
    children kept so far. *)
Fixpoint merge_loop (done : chan) (m : loc) (i : nat)
    (bgs : list (option Background)) (ss : list Background) : M (list Background) :=
  match bgs with
  | [] => mret ss
  | None :: rest => merge_loop done m (S i) rest ss
  | Some s :: rest =>
      σ ← get_store;
      (if is_closed σ (finishSig s) then mret tt
       else modify_store (insert_key m i);; go (close_stream done s));;
      merge_loop done m (S i) rest (ss ++ [s])
  end.

(** [func merge(bgs ...Background) *group] *)
Definition merge (bgs : list (option Background)) : M group :=
  match bgs with
  | [] => mret (Group [] None closedchan closedchan)
  | _ =>
      done ← make_chan;
      finished ← make_chan;
      m ← make_map;
      ss ← merge_loop done m 0 bgs [];
      mret (Group ss (Some m) done finished)
  end.

Definition Merge (bgs : list (option Background)) : M Background :=
  g ← merge bgs; mret (groupBackground g).

Definition Empty : Background := emptyBackground.

Definition withDependency (parent : Background) (children : list (option Background))
    : M Background :=
  g ← merge children; f ← make_chan; mret (dependBackground g parent f).

(** Every implementation's [DependsOn] is [withDependency] on the receiver. *)
Definition DependsOn (b : Background) (children : list (option Background)) : M Background :=
  withDependency b children.

Definition withShutdown (children : list (option Background)) : M Background :=
  g ← merge children; d ← make_chan; e ← make_chan; mret (shutdownBackground g e d).

Definition withWait (children : list (option Background)) : M Background :=
  g ← merge children; wg ← new_waitgroup; mret (waitBackground g wg).

Definition withReadiness (children : list (option Background)) : M Background :=
  g ← merge children; r ← make_chan; mret (readinessBackground g r).

Definition withValue (key value : any) (children : list (option Background)) : M Background :=
  match key with
  | None => panic "nil background value key"
  | Some k =>
      if negb (Comparable (dyn_type k)) then panic "background value key is not comparable"
      else g ← merge children; mret (valueBackground g key value)
  end.

Definition withAnnotation (message : string) (children : list (option Background))
    : M Background :=
  g ← merge children; mret (annotationBackground g message).

Definition withError (err : option error) (children : list (option Background))
    : M Background :=
  g ← merge children; l ← new_err err; mret (errBackground g l).

Definition withErrorGroup (children : list (option Background)) : M Background :=
  g ← merge children; l ← new_err None; mret (errGroupBackground g l).

(** The store of a program that has just started: nothing closed except
    [closedchan], nothing allocated. *)
Definition init_store : store := Store ∅ ∅ ∅ 1.
Definition init_world : world := World init_store [].

(** ** The tails *)

(** [func (e *errGroupBackground) Error(err error)]: the whole body runs
    under the mutex of the embedded [errBackground]. *)
Definition Error (l : loc) (err : option error) (σ : store) : store :=
  match err with
  | Some e =>
      match errs σ !! l with
      | None => Store (closed_chans σ) (maps σ) (<[l := e]> (errs σ)) (next σ)
      | Some _ => σ
      end
  | None => σ
  end.

(** [func (e *errBackground) Err() error] *)
Definition errBackground_Err (σ : store) (l : loc) : option error := errs σ !! l.

(** A sequence of [Error] calls, each on some error group's tail. *)
Definition Error_calls (calls : list (loc * option error)) (σ : store) : store :=
  foldl (λ σ call, Error call.1 call.2 σ) σ calls.


(** ** The shutdown protocol *)

(** [func shutdown(ctx context.Context, c closer) error]:
    [go c.close()], then
    [select { case <-c.finishSig(): return nil; case <-ctx.Done(): return c.cause() }].
    [ctx] stands for the channel [ctx.Done()].  The select fires in a store
    [σ1] later than the store [σ] of the call, and the cause walk reads a
    store [σ2] later still; the goroutine's run [tg], [og] is its own. *)
Inductive shutdown (ctx : chan) (c : Background) (σ : store)
    : list event → outcome → option error → Prop :=
  | shutdown_finished σg tg og σ1 :
      grows σ σg → exec false σg [ICall c] tg og →
      grows σ σ1 → is_closed σ1 (finishSig c) = true →
      shutdown ctx c σ tg og None
  | shutdown_deadline σg tg og σ1 σ2 :
      grows σ σg → exec false σg [ICall c] tg og →
      grows σ σ1 → is_closed σ1 ctx = true →
      grows σ1 σ2 →
      shutdown ctx c σ tg og (cause σ2 c).

(** The [Shutdown(ctx)] method of each implementation: the kinds that
    embed a [*group] inherit [group.Shutdown], which runs the protocol on
    the group; [annotationBackground] wraps what that returns, in a store
    [σ3] later than the store of the call. *)
Definition Shutdown (ctx : chan) (b : Background) (σ : store)
    (tg : list event) (og : outcome) (r : option error) : Prop :=
  match b with
  | emptyBackground => r = None
  | dependBackground _ _ _ | shutdownBackground _ _ _ => shutdown ctx b σ tg og r
  | annotationBackground g a =>
      ∃ r0 σ3, shutdown ctx (groupBackground g) σ tg og r0 ∧ grows σ σ3 ∧
               r = match r0 with
                   | Some err => Some (Errorf_annot (fresh_wrapper σ3 err) a err)
                   | None => None
                   end
  | groupBackground g | waitBackground g _ | readinessBackground g _
  | valueBackground g _ _ | errBackground g _ | errGroupBackground g _ =>
      shutdown ctx (groupBackground g) σ tg og r
  end.

(** ** Vocabulary of the statements *)

(** [r] is the leftmost non-nil entry of [rs], or nil when there is none. *)
Definition leftmost_non_nil {A} (rs : list (option A)) (r : option A) : Prop :=
  match r with
  | Some x => ∃ i, rs !! i = Some (Some x) ∧ ∀ j, j < i → rs !! j = Some None
  | None => ∀ i o, rs !! i = Some o → o = None
  end.

(** [err] is [e] wrapped with the label [X]: its text is [X], a colon and
    a space, then the text of [e]; it unwraps to [e]; [errors.Is] recognises
    in it every target it recognises in [e], and it recognises [e] itself
    in it exactly when it recognises [e] in [e]. *)
Definition wraps_as (X : string) (e err : error) : Prop :=
  error_Error err = X +:+ ": " +:+ error_Error e
  ∧ Unwrap err = Some e
  ∧ errors_Is err e = errors_Is e e
  ∧ ∀ target, errors_Is e target = Some true → errors_Is err target = Some true.

(** [plain t d]: [d] is a datum of the type [t] that holds no NaN and whose
    interface components hold data of comparable types, plain in turn. *)
Fixpoint plain (t : gotype) (d : datum) {struct d} : bool :=
  match underlying t, d with
  | TBool, DBool _ | TInt, DInt _ | TString, DString _ => true
  | TPointer, DRef _ | TChan, DRef _ => true
  | TFloat64, DFloat a => negb (f64_nan a)
  | TComplex128, DComplex a b => negb (f64_nan a) && negb (f64_nan b)
  | TInterface, DNil => true
  | TInterface, DIface t1 x => Comparable t1 && plain t1 x
  | TArray _ elem, DTuple xs =>
      (fix all (xs : list datum) {struct xs} : bool :=
         match xs with
         | [] => true
         | x :: xs' => plain elem x && all xs'
         end) xs
  | TStruct fields, DTuple xs =>
      (fix all (fields : list gotype) (xs : list datum) {struct xs} : bool :=
         match xs, fields with
         | [], [] => true
         | x :: xs', f :: fields' => plain f x && all fields' xs'
         | _, _ => false
         end) fields xs
  | _, _ => false
  end.

(** [r] is the leftmost entry of [rs] that is not a nil answer, or a nil
    answer when there is none. *)
Definition leftmost_value (rs : list answer) (r : answer) : Prop :=
  match r with
  | Returns None => ∀ i o, rs !! i = Some o → o = Returns None
  | _ => ∃ i, rs !! i = Some r ∧ ∀ j, j < i → rs !! j = Some (Returns None)
  end.

(** Every shutdown leaf of the tree has signalled done. *)
Fixpoint all_done (σ : store) (b : Background) : bool :=
  match b with
  | emptyBackground => true
  | dependBackground children parent _ =>
      forallb (all_done σ) (backgrounds children) && all_done σ parent
  | shutdownBackground g _ d =>
      forallb (all_done σ) (backgrounds g) && is_closed σ d
  | groupBackground g | waitBackground g _ | readinessBackground g _
  | valueBackground g _ _ | annotationBackground g _
  | errBackground g _ | errGroupBackground g _ =>
      forallb (all_done σ) (backgrounds g)
  end.

(** [unfinished_path σ b labels]: a path leads from [b] down to a shutdown
    leaf that has not signalled done, and [labels] are the annotations met
    on the way, outermost first. *)
Inductive unfinished_path (σ : store) : Background → list string → Prop :=
  | path_here g e d :
      is_closed σ d = false →
      unfinished_path σ (shutdownBackground g e d) []
  | path_annotation g a child labels :
      child ∈ backgrounds g →
      unfinished_path σ child labels →
      unfinished_path σ (annotationBackground g a) (a :: labels)
  | path_child b g child labels :
      embedded b = Some g →
      (∀ g' a, b ≠ annotationBackground g' a) →
      child ∈ backgrounds g →
      unfinished_path σ child labels →
      unfinished_path σ b labels
  | path_depend_child children parent f child labels :
      child ∈ backgrounds children →
      unfinished_path σ child labels →
      unfinished_path σ (dependBackground children parent f) labels
  | path_depend_parent children parent f labels :
      unfinished_path σ parent labels →
      unfinished_path σ (dependBackground children parent f) labels.

(** [err] wrapped by the annotations [labels], outermost first, by one
    call that allocates from the address [h] on. *)
Definition annotate (h : nat) (labels : list string) (err : error) : error :=
  foldr (λ a e, Errorf_annot (h + wraps e) a e) err labels.

(** The channels closed by the steps of a trace, at any depth, goroutines
    included. *)
Fixpoint event_closes (e : event) : list chan :=
  match e with
  | EClose c _ => [c]
  | ERecv _ _ | EDelete _ _ _ => []
  | ECallGroup _ _ sub | ECall _ _ sub | EGo _ _ sub _ =>
      concat (map event_closes sub)
  end.

Definition closes (t : list event) : list chan := concat (map event_closes t).

Definition is_panic (o : outcome) : bool :=
  match o with
  | Panicked _ => true
  | Finished _ | Returned _ | Blocked _ _ => false
  end.

(** A goroutine started somewhere in the trace panicked. *)
Fixpoint event_crashed (e : event) : bool :=
  match e with
  | EClose _ _ | ERecv _ _ | EDelete _ _ _ => false
  | ECallGroup _ _ sub | ECall _ _ sub => existsb event_crashed sub
  | EGo _ _ sub o => is_panic o || existsb event_crashed sub
  end.

Definition crashed (t : list event) (o : outcome) : bool :=
  is_panic o || existsb event_crashed t.



(** A step that is neither a call nor a [go] statement. *)
Definition plain_event (e : event) : bool :=
  match e with
  | EClose _ _ | ERecv _ _ | EDelete _ _ _ => true
  | ECallGroup _ _ _ | ECall _ _ _ | EGo _ _ _ _ => false
  end.

(** A statement that calls no [close()] and starts no goroutine. *)
Fixpoint call_free (i : instr) : bool :=
  match i with
  | IClose _ | IRecv _ | IReturn | IRange _ | IDelete _ _ => true
  | ISelect _ r d => forallb call_free r && forallb call_free d
  | ILocked body => forallb call_free body
  | IGo _ | ICallGroup _ | ICall _ => false
  end.

(** The stages of a call of [close()] on the dependency of [parent] on
    [children] that performs the steps [t] and ends as [o]: the call
    requests close on the children group (in [σ0], with steps [sub], none
    of which is a call or starts a goroutine); once
    that call has returned it receives from the children's finished signal
    (in [σ1]); then it requests close on the parent (in [σ2], with steps
    [subp]); once that call has returned it receives from the parent's
    finished signal (in [σ3]); then, under its mutex (in [σ4]), it closes its
    own finished signal unless that is closed already, and returns. *)
Definition depend_close_stages (children : group) (parent : Background) (f : chan)
    (σ : store) (t : list event) (o : outcome) : Prop :=
  ∃ σ0 sub oc,
    grows σ σ0 ∧ exec false σ0 (group_close children) sub oc ∧
    forallb plain_event sub = true ∧
    ((t = [ECallGroup children σ0 sub] ∧ completes o = None)
     ∨ ∃ σ1 σ2 subp op,
         grows σ0 σ1 ∧ grows σ1 σ2 ∧
         is_closed σ1 (finished children) = true ∧
         is_closed σ2 (finished children) = true ∧
         exec false σ2 (close parent) subp op ∧
         ((t = [ECallGroup children σ0 sub; ERecv (finished children) σ1;
                ECall parent σ2 subp]
           ∧ completes o = None)
          ∨ ∃ σ3 σ4 σ5,
              grows σ2 σ3 ∧ grows σ3 σ4 ∧ grows σ4 σ5 ∧
              is_closed σ3 (finishSig parent) = true ∧
              is_closed σ4 (finishSig parent) = true ∧
              is_closed σ4 (finished children) = true ∧
              is_closed σ5 f = true ∧
              o = Finished σ5 ∧
              ((t = [ECallGroup children σ0 sub; ERecv (finished children) σ1;
                     ECall parent σ2 subp; ERecv (finishSig parent) σ3]
                ∧ is_closed σ4 f = true)
               ∨ (t = [ECallGroup children σ0 sub; ERecv (finished children) σ1;
                       ECall parent σ2 subp; ERecv (finishSig parent) σ3;
                       EClose f σ4]
                  ∧ is_closed σ4 f = false)))).

(** ** Sample values *)

Definition no_children : group := Group [] None closedchan closedchan.

Definition err1 : error := errorString 1 "error1".
Definition err2 : error := errorString 2 "error2".

(** A store in which the [err] field at 1 holds [err1] and the one at 2
    holds [err2]. *)
Definition sample_store : store := Store ∅ ∅ (<[1 := err1]> (<[2 := err2]> ∅)) 10.

Definition test_key : any := Some (Iface (TNamed "key" TString) (DString "test_key")).
Definition test_value1 : any := Some (Iface TString (DString "v1")).
Definition test_value2 : any := Some (Iface TString (DString "v2")).

(** [math.NaN()], a [float64] key that [withValue] accepts. *)
Definition nan_key : any := Some (Iface TFloat64 (DFloat 9221120237041090560)).

(** A key of the type [struct{ X interface{} }] whose field holds a slice. *)
Definition slice_in_struct_key : any :=
  Some (Iface (TStruct [TInterface]) (DTuple [DIface (TSlice TInt) (DRef 41)])).

(** An error of a job's own slice type, [type errs []string]. *)
Definition slice_error : error :=
  jobError (Iface (TNamed "errs" (TSlice TString)) (DRef 40)) "two errors".

(** A store in which the [err] field at 1 holds [slice_error]. *)
Definition slice_error_store : store := Store ∅ ∅ (<[1 := slice_error]> ∅) 10.

(** A dependency of the shutdown leaf with channels 15 (end) and 16
    (done) on the shutdown leaf with channels 11 and 12, and a store in which
    both jobs have called [Done()] and the child is tracked at index 0. *)
Definition sample_child : Background := shutdownBackground no_children 11 12.
Definition sample_parent : Background := shutdownBackground no_children 15 16.
Definition sample_children : group := Group [sample_child] (Some 20) 13 14.
Definition sample_depend : Background :=
  dependBackground sample_children sample_parent 17.
Definition sample_done_store : store := Store {[12; 16]} {[20 := {[0]}]} ∅ 30.

(** [leaf, _ := WithShutdown(); g := merge(nil, leaf)] *)
Definition nil_then_leaf : M (Background * group) :=
  leaf ← withShutdown [];
  g ← merge [None; Some leaf];
  mret (leaf, g).

(** [a, _ := WithShutdown(); b, tail := WithShutdown(); tail.Done();
    g := merge(nil, a, b)] *)
Definition nil_then_two : M (Background * Background * group) :=
  a ← withShutdown [];
  b ← withShutdown [];
  modify_store (close_chan (finishSig b));;
  g ← merge [None; Some a; Some b];
  mret (a, b, g).


(** ** Vocabulary of the further statements *)

(** The key/value pairs held by the value leaves of a tree. *)
Fixpoint values (b : Background) : list (any * any) :=
  match b with
  | emptyBackground => []
  | dependBackground children parent _ =>
      values parent ++ concat (map values (backgrounds children))
  | valueBackground g k v => (k, v) :: concat (map values (backgrounds g))
  | groupBackground g | shutdownBackground g _ _ | waitBackground g _
  | readinessBackground g _ | annotationBackground g _
  | errBackground g _ | errGroupBackground g _ =>
      concat (map values (backgrounds g))
  end.

(** The kinds whose [Err()] is the promoted [group.Err]. *)
Definition inherits_Err (b : Background) : bool :=
  match b with
  | groupBackground _ | shutdownBackground _ _ _ | waitBackground _ _
  | readinessBackground _ _ | valueBackground _ _ _ => true
  | emptyBackground | dependBackground _ _ _ | annotationBackground _ _
  | errBackground _ _ | errGroupBackground _ _ => false
  end.

(** [error_path b labels l]: a path leads from [b] down to an error leaf
    with the [err] field [l] without passing below another error leaf, and
    [labels] are the annotations met on the way, outermost first. *)
Inductive error_path : Background → list string → loc → Prop :=
  | epath_error g l : error_path (errBackground g l) [] l
  | epath_error_group g l : error_path (errGroupBackground g l) [] l
  | epath_annotation g a child labels l :
      child ∈ backgrounds g →
      error_path child labels l →
      error_path (annotationBackground g a) (a :: labels) l
  | epath_child b g child labels l :
      embedded b = Some g →
      inherits_Err b = true →
      child ∈ backgrounds g →
      error_path child labels l →
      error_path b labels l
  | epath_depend_child children parent f child labels l :
      child ∈ backgrounds children →
      error_path child labels l →
      error_path (dependBackground children parent f) labels l
  | epath_depend_parent children parent f labels l :
      error_path parent labels l →
      error_path (dependBackground children parent f) labels l.

(** A store as allocation leaves it: channel 0 is [closedchan], and every
    channel that has been closed was allocated before. *)
Definition wf_store (σ : store) : Prop :=
  0 < next σ ∧ ∀ c, c ∈ closed_chans σ → c < next σ.

(** The non-nil children among the arguments that have not finished in
    [σ]. *)
Definition unfinished_args (σ : store) (bgs : list (option Background)) : list Background :=
  filter (λ s, is_closed σ (finishSig s) = false) (omap id bgs).


(** The indices a group still owes a close in [σ]. *)
Definition owed (σ : store) (g : group) : gset nat :=
  match toClose g with
  | Some m => tracked σ m
  | None => ∅
  end.

(** * Properties *)

(** ** Induction over the tree *)

Section BackgroundInd.
Variable P : Background → Prop.
Hypothesis Hempty : P emptyBackground.
Hypothesis Hdepend : ∀ children parent f,
  Forall P (backgrounds children) → P parent → P (dependBackground children parent f).
Hypothesis Hembed : ∀ b g,
  embedded b = Some g → Forall P (backgrounds g) → P b.

Definition Forall_of (F : ∀ b, P b) : ∀ l, Forall P l :=
  fix go l :=
    match l with
    | [] => List.Forall_nil P
    | x :: l' => List.Forall_cons P x l' (F x) (go l')
    end.

Fixpoint Background_tree_ind (b : Background) : P b :=
  match b with
  | emptyBackground => Hempty
  | dependBackground children parent f =>
      Hdepend children parent f
        (Forall_of Background_tree_ind (backgrounds children))
        (Background_tree_ind parent)
  | groupBackground g as b' | shutdownBackground g _ _ as b'
  | waitBackground g _ as b' | readinessBackground g _ as b'
  | valueBackground g _ _ as b' | annotationBackground g _ as b'
  | errBackground g _ as b' | errGroupBackground g _ as b' =>
      Hembed b' g eq_refl (Forall_of Background_tree_ind (backgrounds g))
  end.
End BackgroundInd.

Section GotypeInd.
Variable P : gotype → Prop.
Hypothesis Hbool : P TBool.
Hypothesis Hint : P TInt.
Hypothesis Hfloat : P TFloat64.
Hypothesis Hcomplex : P TComplex128.
Hypothesis Hstring : P TString.
Hypothesis Hpointer : P TPointer.
Hypothesis Hchan : P TChan.
Hypothesis Hinterface : P TInterface.
Hypothesis Hfunc : P TFunc.
Hypothesis Hslice : ∀ t, P t → P (TSlice t).
Hypothesis Hmap : ∀ k t, P k → P t → P (TMap k t).
Hypothesis Harray : ∀ n t, P t → P (TArray n t).
Hypothesis Hstruct : ∀ fs, Forall P fs → P (TStruct fs).
Hypothesis Hnamed : ∀ n t, P t → P (TNamed n t).

Fixpoint gotype_tree_ind (t : gotype) : P t :=
  match t with
  | TBool => Hbool | TInt => Hint | TFloat64 => Hfloat
  | TComplex128 => Hcomplex | TString => Hstring
  | TPointer => Hpointer | TChan => Hchan
  | TInterface => Hinterface | TFunc => Hfunc
  | TSlice e => Hslice e (gotype_tree_ind e)
  | TMap k e => Hmap k e (gotype_tree_ind k) (gotype_tree_ind e)
  | TArray n e => Harray n e (gotype_tree_ind e)
  | TStruct fs =>
      Hstruct fs
        ((fix go l : Forall P l :=
            match l with
            | [] => List.Forall_nil P
            | x :: l' => List.Forall_cons P x l' (gotype_tree_ind x) (go l')
            end) fs)
  | TNamed n u => Hnamed n u (gotype_tree_ind u)
  end.
End GotypeInd.

Section DatumInd.
Variable P : datum → Prop.
Hypothesis Hbool : ∀ b, P (DBool b).
Hypothesis Hint : ∀ z, P (DInt z).
Hypothesis Hfloat : ∀ z, P (DFloat z).
Hypothesis Hcomplex : ∀ a b, P (DComplex a b).
Hypothesis Hstring : ∀ x, P (DString x).
Hypothesis Href : ∀ a, P (DRef a).
Hypothesis Hnil : P DNil.
Hypothesis Hiface : ∀ t d, P d → P (DIface t d).
Hypothesis Htuple : ∀ ds, Forall P ds → P (DTuple ds).

Fixpoint datum_tree_ind (d : datum) : P d :=
  match d with
  | DBool b => Hbool b | DInt z => Hint z | DFloat z => Hfloat z
  | DComplex a b => Hcomplex a b | DString x => Hstring x | DRef a => Href a
  | DNil => Hnil
  | DIface t x => Hiface t x (datum_tree_ind x)
  | DTuple ds =>
      Htuple ds
        ((fix go l : Forall P l :=
            match l with
            | [] => List.Forall_nil P
            | x :: l' => List.Forall_cons P x l' (datum_tree_ind x) (go l')
            end) ds)
  end.
End DatumInd.

(** ** Tactics *)

(** Unfolds the constructor monad. *)
Ltac unfold_M :=
  unfold make_chan, make_map, new_err, new_waitgroup, get_store, modify_store, go, panic,
    mbind, M_bind, mret, M_ret in *; simpl in *.

(** ** Interface equality *)

Lemma gotype_eqb_eq a b : gotype_eqb a b = true ↔ a = b.
Proof.
  revert b. induction a using gotype_tree_ind;
    try (intros []; simpl; split; congruence).
  - intros []; simpl; try (split; congruence).
    rewrite IHa. split; congruence.
  - intros []; simpl; try (split; congruence).
    rewrite andb_true_iff, IHa1, IHa2. split; [intros [-> ->]; done | intros [= -> ->]; done].
  - intros []; simpl; try (split; congruence).
    rewrite andb_true_iff, bool_decide_eq_true, IHa.
    split; [intros [-> ->]; done | intros [= -> ->]; done].
  - intros []; simpl; try (split; congruence).
    rename fields into gs. revert gs.
    induction H as [|x fs Hx Hfs IH]; intros [|y gs]; try (split; congruence).
    rewrite andb_true_iff, Hx, IH.
    split; [intros [-> [= ->]]; done | intros [= -> ->]; done].
  - intros []; simpl; try (split; congruence).
    rewrite andb_true_iff, bool_decide_eq_true, IHa.
    split; [intros [-> ->]; done | intros [= -> ->]; done].
Qed.

Lemma gotype_eqb_refl (t : gotype) : gotype_eqb t t = true.
Proof. by apply gotype_eqb_eq. Qed.

Lemma f64_eqb_refl (a : Z) : f64_nan a = false → f64_eqb a a = true.
Proof.
  intros Ha. unfold f64_eqb. rewrite Ha, Z.eqb_refl. simpl. apply orb_true_r.
Qed.

Lemma f64_eqb_nan (a b : Z) : f64_nan a = true → f64_eqb a b = false.
Proof. intros Ha. unfold f64_eqb. by rewrite Ha. Qed.

Lemma Comparable_underlying (t : gotype) : Comparable (underlying t) = Comparable t.
Proof. induction t using gotype_tree_ind; simpl; done. Qed.

(** A NaN of a floating-point type does not equal itself. *)
Lemma any_eq_nan (t : gotype) (bits : Z) :
  underlying t = TFloat64 → f64_nan bits = true →
  any_eq (Some (Iface t (DFloat bits))) (Some (Iface t (DFloat bits))) = Some false.
Proof.
  intros Hu Hn. unfold any_eq. cbn [dyn_type dyn_data].
  rewrite gotype_eqb_refl, <- Comparable_underlying, Hu. cbn [Comparable data_eq].
  by rewrite Hu, f64_eqb_nan.
Qed.

(** [==] is reflexive on plain data. *)
Lemma data_eq_plain (d : datum) : ∀ t, plain t d = true → data_eq t d d = Some true.
Proof.
  induction d as [b|z|z|a b|x|a| |t1 d IH|ds IH] using datum_tree_ind;
    intros t Hp; cbn [plain data_eq] in *;
    destruct (underlying t) as [| | | | | | | | | | |n elem|fields|];
    try discriminate Hp.
  - by rewrite bool_decide_eq_true_2.
  - by rewrite Z.eqb_refl.
  - apply negb_true_iff in Hp. by rewrite f64_eqb_refl.
  - apply andb_true_iff in Hp as [Ha Hb]. apply negb_true_iff in Ha, Hb.
    by rewrite !f64_eqb_refl.
  - by rewrite bool_decide_eq_true_2.
  - by rewrite Nat.eqb_refl.
  - by rewrite Nat.eqb_refl.
  - reflexivity.
  - apply andb_true_iff in Hp as [Hc Hp]. rewrite gotype_eqb_refl, Hc. by apply IH.
  - induction IH as [|x xs Hx _ IHxs]; [done|].
    apply andb_true_iff in Hp as [Hpx Hp]. rewrite (Hx _ Hpx). by apply IHxs.
  - revert fields Hp. induction IH as [|x xs Hx _ IHxs]; intros [|f fields] Hp; try done.
    apply andb_true_iff in Hp as [Hpx Hp]. rewrite (Hx _ Hpx). by apply IHxs.
Qed.

Lemma any_eq_plain (k : iface) :
  Comparable (dyn_type k) = true →
  plain (dyn_type k) (dyn_data k) = true →
  any_eq (Some k) (Some k) = Some true.
Proof.
  intros Hc Hp. simpl. rewrite gotype_eqb_refl, Hc. by apply data_eq_plain.
Qed.

Lemma first_value_leftmost {A} (f : A → answer) (l : list A) :
  leftmost_value (f <$> l) (first_value f l).
Proof.
  induction l as [|a l IH]; simpl.
  - intros i o. by rewrite lookup_nil.
  - destruct (f a) as [[v|]|] eqn:Ea.
    + exists 0. simpl. split; [done | lia].
    + destruct (first_value f l) as [[v|]|]; simpl in *.
      * destruct IH as (i & Hi & Hlt). exists (S i). split; [done|].
        intros [|j] Hj; simpl; [done | apply Hlt; lia].
      * intros [|i] o; simpl; [congruence | apply IH].
      * destruct IH as (i & Hi & Hlt). exists (S i). split; [done|].
        intros [|j] Hj; simpl; [done | apply Hlt; lia].
    + exists 0. simpl. split; [done | lia].
Qed.

(** ** Scanning children left to right *)

Lemma first_non_nil_leftmost {A B} (f : A → option B) (l : list A) :
  leftmost_non_nil (f <$> l) (first_non_nil f l).
Proof.
  induction l as [|a l IH]; simpl.
  - intros i o. by rewrite lookup_nil.
  - destruct (f a) as [r|] eqn:Ea.
    + exists 0. simpl. split; [done | lia].
    + destruct (first_non_nil f l) as [r|]; simpl in *.
      * destruct IH as (i & Hi & Hlt). exists (S i). split; [done|].
        intros [|j] Hj; simpl; [done | apply Hlt; lia].
      * intros [|i] o; simpl; [congruence | apply IH].
Qed.

Lemma leftmost_non_nil_unique {A} (rs : list (option A)) (r r' : option A) :
  leftmost_non_nil rs r → leftmost_non_nil rs r' → r = r'.
Proof.
  destruct r as [x|], r' as [y|]; simpl; [| | |done].
  - intros (i & Hi & Hlt) (j & Hj & Hlt').
    destruct (decide (i < j)) as [Hij|Hij].
    { specialize (Hlt' _ Hij). congruence. }
    destruct (decide (j < i)) as [Hji|Hji].
    { specialize (Hlt _ Hji). congruence. }
    assert (i = j) by lia. congruence.
  - intros (i & Hi & _) Hnone. by specialize (Hnone _ _ Hi).
  - intros Hnone (i & Hi & _). by specialize (Hnone _ _ Hi).
Qed.

(** ** Constructors always return, except for [withValue]'s key check *)

Lemma merge_loop_ok done m bgs : ∀ i ss w,
  ∃ w', merge_loop done m i bgs ss w = Ok (ss ++ omap id bgs) w'.
Proof.
  induction bgs as [|[s|] bgs IH]; intros i ss w; simpl.
  - exists w. by rewrite app_nil_r.
  - unfold_M. destruct (is_closed (w_store w) (finishSig s)); simpl.
    + destruct (IH (S i) (ss ++ [s]) w) as [w' Hw'].
      exists w'. rewrite Hw'. by rewrite <- app_assoc.
    + match goal with |- context [merge_loop _ _ _ _ _ ?w0] =>
        destruct (IH (S i) (ss ++ [s]) w0) as [w' Hw'] end.
      exists w'. rewrite Hw'. by rewrite <- app_assoc.
  - apply IH.
Qed.

Lemma merge_ok bgs w :
  ∃ g w', merge bgs w = Ok g w' ∧ backgrounds g = omap id bgs.
Proof.
  destruct bgs as [|b bgs].
  - by exists (Group [] None closedchan closedchan), w.
  - unfold merge. cbv match. generalize (b :: bgs). intros l. unfold_M.
    match goal with |- context [merge_loop ?d ?m ?i ?l ?ss ?w0] =>
      destruct (merge_loop_ok d m l i ss w0) as [w' Hw'] end.
    rewrite Hw'. eauto.
Qed.

Lemma elem_of_omap_id {A} (l : list (option A)) (x : A) :
  Some x ∈ l → x ∈ omap id l.
Proof. intros H. apply list_elem_of_omap. by exists (Some x). Qed.

(** ** Errors and values through the tree *)

(** C4: [Err] precedence is deterministic.  For every group, [Err()] is the
    leftmost non-nil [Err()] of its children and nil when there is none; for
    every dependency, [Err()] is the parent's error when that is non-nil,
    and otherwise the leftmost non-nil error of the children, nil when
    there is none. *)
Theorem Err_precedence (σ : store) :
  (∀ g : group,
     Err σ (groupBackground g) = group_Err σ g ∧
     leftmost_non_nil (Err σ <$> backgrounds g) (group_Err σ g))
  ∧ (∀ (children : group) (parent : Background) (f : chan),
       (∀ e, Err σ parent = Some e →
             Err σ (dependBackground children parent f) = Some e)
       ∧ (Err σ parent = None →
            Err σ (dependBackground children parent f) = group_Err σ children
            ∧ leftmost_non_nil (Err σ <$> backgrounds children) (group_Err σ children))).
Proof.
  split.
  - intros g. split; [done|]. apply first_non_nil_leftmost.
  - intros children parent f. split.
    + intros e He. simpl. by rewrite He.
    + intros Hp. simpl. rewrite Hp. split; [done|].
      apply first_non_nil_leftmost.
Qed.

Lemma Err_precedence_witness :
  Err sample_store
      (dependBackground (Group [errBackground no_children 2] None 3 4)
                        (errBackground no_children 1) 5) = Some err1
  ∧ Err sample_store
      (dependBackground (Group [emptyBackground; errBackground no_children 2;
                                errBackground no_children 1] None 3 4)
                        emptyBackground 5) = Some err2.
Proof.
  split.
  - apply (proj2 (Err_precedence sample_store)). reflexivity.
  - destruct (proj2 (proj2 (Err_precedence sample_store)
                      (Group [emptyBackground; errBackground no_children 2;
                              errBackground no_children 1] None 3 4)
                      emptyBackground 5) eq_refl) as [-> _].
    reflexivity.
Defined.

(** C5, as amended: a value leaf answers a key that is equal ([==]) to
    its own key with its own value and defers every key that is not to its
    group, whose answer is the leftmost non-nil answer of the children; a
    comparison that panics makes the call panic.  So a leaf built over a
    leaf with the same key wins when the key equals itself, as every plain
    key of a comparable type does; for a key that does not equal itself, as
    a NaN, neither leaf answers and [Value] returns nil. *)
Theorem Value_precedence (g : group) (key value : any) :
  (∀ k : any,
     Value (valueBackground g key value) k =
       match any_eq key k with
       | Some true => Returns value
       | Some false => group_Value g k
       | None => Panics
       end
     ∧ leftmost_value ((λ bg, Value bg k) <$> backgrounds g) (group_Value g k))
  ∧ (∀ (v1 v2 : any) (w w1 w2 : world) (bg bg2 : Background),
       withValue key v1 [] w = Ok bg w1 →
       withValue key v2 [Some bg] w1 = Ok bg2 w2 →
       Value bg2 key = match any_eq key key with
                       | Some true => Returns v2
                       | Some false => Returns None
                       | None => Panics
                       end)
  ∧ (∀ k0 : iface,
       key = Some k0 →
       Comparable (dyn_type k0) = true →
       plain (dyn_type k0) (dyn_data k0) = true →
       any_eq key key = Some true)
  ∧ (∀ (t : gotype) (bits : Z),
       key = Some (Iface t (DFloat bits)) →
       underlying t = TFloat64 → f64_nan bits = true →
       any_eq key key = Some false).
Proof.
  split_and!.
  - intros k. split; [|apply first_value_leftmost].
    cbn [Value]. by destruct (any_eq key k) as [[|]|].
  - intros v1 v2 w w1 w2 bg bg2 H1 H2.
    unfold withValue in H1, H2. destruct key as [k|]; [|done].
    destruct (negb (Comparable (dyn_type k))); [done|].
    unfold mbind, M_bind, merge, mret, M_ret in H1. injection H1 as <- <-.
    destruct (merge_ok [Some (valueBackground (Group [] None closedchan closedchan)
                                (Some k) v1)] w) as (g' & w' & Hm & Hbg).
    unfold mbind, M_bind in H2. rewrite Hm in H2.
    injection H2 as <- <-. cbn [Value]. rewrite Hbg.
    destruct (any_eq (Some k) (Some k)) as [[|]|] eqn:E; [done| |done].
    simpl. unfold any_eq in E. by rewrite E.
  - intros k0 -> Hc Hp. by apply any_eq_plain.
  - intros t bits -> Hu Hn. by apply any_eq_nan.
Qed.

Lemma Value_precedence_witness :
  ∃ bg w1 bg2 w2,
    withValue test_key test_value1 [] init_world = Ok bg w1
    ∧ withValue test_key test_value2 [Some bg] w1 = Ok bg2 w2
    ∧ Value bg2 test_key = Returns test_value2
    ∧ Value bg test_key = Returns test_value1.
Proof.
  eexists _, _, _, _. split; [reflexivity|]. split; [reflexivity|]. split.
  - rewrite (proj1 (proj2 (Value_precedence no_children test_key None))
               test_value1 test_value2 init_world _ _ _ _ eq_refl eq_refl).
    reflexivity.
  - reflexivity.
Defined.

(** C5 as the specification states it fails: [math.NaN()] passes the key
    checks of [withValue], and a leaf built with it over a leaf with the
    same key answers nil for that key, not the topmost value.  A key of a
    struct type whose interface field holds a slice passes the checks too,
    and asking for it panics. *)
Lemma Value_precedence_counterexample :
  ∃ bg w1 bg2 w2 bg3 w3,
    withValue nan_key test_value1 [] init_world = Ok bg w1
    ∧ withValue nan_key test_value2 [Some bg] w1 = Ok bg2 w2
    ∧ Value bg2 nan_key = Returns None
    ∧ test_value2 = Some (Iface TString (DString "v2"))
    ∧ withValue slice_in_struct_key test_value1 [] init_world = Ok bg3 w3
    ∧ Value bg3 slice_in_struct_key = Panics.
Proof.
  eexists _, _, _, _, _, _. split; [reflexivity|]. split; [reflexivity|].
  split; [vm_compute; reflexivity|]. split; [reflexivity|].
  split; [reflexivity | vm_compute; reflexivity].
Qed.

(** ** Annotations *)

(** A pointer is equal to itself. *)
Lemma errors_Is_refl (e : error) :
  error_Comparable e = true → error_eq e e = Some true → errors_Is e e = Some true.
Proof. intros Hc He. destruct e; cbn [errors_Is]; by rewrite Hc, He. Qed.

Lemma errors_Is_pointer (e : error) :
  is_pointer e = true → errors_Is e e = Some true.
Proof.
  intros Hp. destruct e as [a x|a msg inner|v msg|v msg inner]; try done;
    cbn [errors_Is error_Comparable error_eq]; by rewrite Nat.eqb_refl.
Qed.

(** A target of a type that is not comparable is recognised nowhere. *)
Lemma errors_Is_not_comparable (target : error) :
  error_Comparable target = false → ∀ err, errors_Is err target = Some false.
Proof.
  intros Hc err.
  induction err as [a x|a msg inner IH|v msg|v msg inner IH]; cbn [errors_Is];
    by rewrite Hc.
Qed.

(** The head of a wrapper is compared by address, which never panics, and
    only with another wrapper. *)
Lemma errors_Is_wrapper (addr : nat) (msg : string) (e target : error) :
  errors_Is (wrapError addr msg e) target = errors_Is e target
  ∨ (errors_Is (wrapError addr msg e) target = Some true ∧ is_pointer target = true).
Proof.
  cbn [errors_Is]. destruct (error_Comparable target); [|by left].
  destruct target as [b x|b m inner|v m|v m inner]; cbn [error_eq]; try (by left).
  destruct (addr =? b)%nat; [by right | by left].
Qed.

Lemma Errorf_annot_spec (addr : nat) (X : string) (e : error) :
  wraps_as X e (Errorf_annot addr X e).
Proof.
  unfold wraps_as, Errorf_annot. split_and!; try done.
  - destruct (errors_Is_wrapper addr (X +:+ ": " +:+ error_Error e) e e) as [H|[H Hp]];
      [done|].
    rewrite H. symmetry. by apply errors_Is_pointer.
  - intros target Ht.
    destruct (errors_Is_wrapper addr (X +:+ ": " +:+ error_Error e) e target)
      as [H|[H _]]; [by rewrite H | done].
Qed.

(** C6, as amended: an annotation with label [X] turns every non-nil error
    [e] that its group reports through [Err], [cause] or [Shutdown] into an
    error whose text is [X], a colon and a space, then the text of [e],
    which unwraps to [e] and in which [errors.Is] recognises every target
    it recognises in [e] ([ErrTimeout] in a timeout); a nil result stays
    nil.  It recognises [e] itself exactly when [errors.Is(e, e)] holds: it
    does for the pointers that [errors.New] and [fmt.Errorf] return and for
    every error of a comparable type that equals itself, and it does not
    for an error whose dynamic type is not comparable (and has no [Is]
    method). *)
Theorem annotation_wraps (σ : store) (g : group) (X : string) :
  (∀ e, group_Err σ g = Some e →
     ∃ err, Err σ (annotationBackground g X) = Some err ∧ wraps_as X e err)
  ∧ (group_Err σ g = None → Err σ (annotationBackground g X) = None)
  ∧ (∀ e, group_cause σ g = Some e →
     ∃ err, cause σ (annotationBackground g X) = Some err ∧ wraps_as X e err)
  ∧ (group_cause σ g = None → cause σ (annotationBackground g X) = None)
  ∧ (∀ ctx tg og r0,
       Shutdown ctx (groupBackground g) σ tg og r0 →
       ∃ r, Shutdown ctx (annotationBackground g X) σ tg og r
            ∧ match r0 with
              | Some e => ∃ err, r = Some err ∧ wraps_as X e err
              | None => r = None
              end)
  ∧ (∀ ctx tg og r,
       Shutdown ctx (annotationBackground g X) σ tg og r →
       ∃ r0, Shutdown ctx (groupBackground g) σ tg og r0
            ∧ match r0 with
              | Some e => ∃ err, r = Some err ∧ wraps_as X e err
              | None => r = None
              end)
  ∧ (∀ err, wraps_as X ErrTimeout err → errors_Is err ErrTimeout = Some true)
  ∧ (∀ e err, wraps_as X e err →
       (error_Comparable e = true → error_eq e e = Some true →
        errors_Is err e = Some true)
       ∧ (is_pointer e = true → errors_Is err e = Some true)
       ∧ (error_Comparable e = false → errors_Is err e = Some false)).
Proof.
  split_and!.
  - intros e He. eexists. unfold group_Err in He.
    cbn [Err]. rewrite He. split; [done|]. apply Errorf_annot_spec.
  - unfold group_Err. intros He. cbn [Err]. by rewrite He.
  - intros e He. eexists. unfold group_cause in He.
    cbn [cause]. rewrite He. split; [done|]. apply Errorf_annot_spec.
  - unfold group_cause. intros He. cbn [cause]. by rewrite He.
  - intros ctx tg og r0 H0.
    exists (match r0 with
            | Some err => Some (Errorf_annot (fresh_wrapper σ err) X err)
            | None => None
            end).
    split; [exists r0, σ; split_and!; [done | unfold grows; reflexivity | done]|].
    destruct r0 as [e|]; [|done].
    eexists. split; [done|]. apply Errorf_annot_spec.
  - intros ctx tg og r (r0 & σ3 & H0 & _ & ->). exists r0. split; [done|].
    destruct r0 as [e|]; [|done].
    eexists. split; [done|]. apply Errorf_annot_spec.
  - intros err (_ & _ & _ & Hkeep). by apply Hkeep.
  - intros e err (_ & _ & Hself & _). rewrite Hself. split_and!.
    + apply errors_Is_refl.
    + apply errors_Is_pointer.
    + intros Hc. by apply errors_Is_not_comparable.
Qed.

Lemma annotation_wraps_witness :
  group_Err sample_store (Group [errBackground no_children 2] None 3 4) = Some err2
  ∧ ∃ err, Err sample_store
               (annotationBackground (Group [errBackground no_children 2] None 3 4) "test")
           = Some err
           ∧ error_Error err = "test: error2"
           ∧ errors_Is err err2 = Some true.
Proof.
  split; [reflexivity|].
  destruct (proj1 (annotation_wraps sample_store
                     (Group [errBackground no_children 2] None 3 4) "test")
                  err2 eq_refl) as (err & Herr & Hmsg & _ & _ & Hkeep).
  exists err. split; [exact Herr|]. split; [exact Hmsg|].
  apply Hkeep. reflexivity.
Defined.

(** C6 as the specification states it fails: for an error of a job's own
    slice type, [errors.Is] does not recognise the error in what the
    annotation returns. *)
Lemma annotation_wraps_slice_error :
  ∃ err,
    group_Err slice_error_store (Group [errBackground no_children 1] None 3 4)
      = Some slice_error
    ∧ Err slice_error_store
          (annotationBackground (Group [errBackground no_children 1] None 3 4) "test")
      = Some err
    ∧ error_Error err = "test: two errors"
    ∧ errors_Is err slice_error = Some false.
Proof.
  eexists. split; [reflexivity|]. split; [reflexivity|]. split; reflexivity.
Qed.

(** ** Error leaves *)

Lemma Error_lookup (l l' : loc) (err : option error) (σ : store) :
  errs (Error l' err σ) !! l =
    if decide (l' = l) then
      match errs σ !! l with
      | Some e0 => Some e0
      | None => err
      end
    else errs σ !! l.
Proof.
  unfold Error. destruct err as [e|].
  - destruct (errs σ !! l') as [e0|] eqn:E'; simpl.
    + case_decide; [subst; by rewrite E' | done].
    + case_decide.
      * subst. rewrite E'. apply lookup_insert_eq.
      * by apply lookup_insert_ne.
  - case_decide; [by destruct (errs σ !! l) | done].
Qed.

Lemma Error_calls_keeps (calls : list (loc * option error)) : ∀ (σ : store) (l : loc) (e : error),
  errs σ !! l = Some e → errs (Error_calls calls σ) !! l = Some e.
Proof.
  induction calls as [|[l' err] calls IH]; intros σ l e He; [done|].
  simpl. apply IH. rewrite Error_lookup. simpl.
  case_decide; by rewrite He.
Qed.

(** C7: on an error group, [Error(err)] stores [err] exactly when the
    stored error is nil and [err] is not, and changes nothing otherwise; so
    whatever calls follow, on this tail or another, an error that [Err()]
    has returned is the error every later [Err()] returns. *)
Theorem ErrorGroup_first_write_wins (σ : store) (g : group) (l : loc) :
  (∀ err : option error,
     Err (Error l err σ) (errGroupBackground g l) =
       match Err σ (errGroupBackground g l) with
       | Some e0 => Some e0
       | None => err
       end)
  ∧ (∀ err : option error,
       Err σ (errGroupBackground g l) ≠ None ∨ err = None → Error l err σ = σ)
  ∧ (∀ (calls : list (loc * option error)) (e : error),
       Err σ (errGroupBackground g l) = Some e →
       Err (Error_calls calls σ) (errGroupBackground g l) = Some e).
Proof.
  split; [|split].
  - intros err. simpl. rewrite Error_lookup. by rewrite decide_True.
  - intros err [Hset | ->]; [|done]. simpl in Hset. unfold Error.
    destruct err; [|done]. by destruct (errs σ !! l).
  - intros calls e He. simpl in *. by apply Error_calls_keeps.
Qed.

Lemma ErrorGroup_first_write_wins_witness :
  Err (Error 1 (Some err2) sample_store) (errGroupBackground no_children 1) = Some err1
  ∧ Err (Error_calls [(1, Some err2); (2, None); (1, None)] sample_store)
        (errGroupBackground no_children 1) = Some err1
  ∧ Err (Error 3 (Some err2) sample_store) (errGroupBackground no_children 3) = Some err2.
Proof.
  split; [|split].
  - exact (proj1 (ErrorGroup_first_write_wins sample_store no_children 1) (Some err2)).
  - exact (proj2 (proj2 (ErrorGroup_first_write_wins sample_store no_children 1))
             [(1, Some err2); (2, None); (1, None)] err1 eq_refl).
  - exact (proj1 (ErrorGroup_first_write_wins sample_store no_children 3) (Some err2)).
Defined.

(** C10: the [Err()] of an error leaf is the error the leaf stores,
    whatever its children report; a leaf built by [withError(nil, children...)]
    keeps every non-nil child and still answers nil. *)
Theorem errBackground_Err_own (σ : store) (g : group) (l : loc) :
  Err σ (errBackground g l) = errBackground_Err σ l
  ∧ (∀ g' : group, Err σ (errBackground g' l) = Err σ (errBackground g l))
  ∧ (∀ (children : list (option Background)) (w : world),
       ∃ g' l' w', withError None children w = Ok (errBackground g' l') w'
                   ∧ (∀ child, Some child ∈ children → child ∈ backgrounds g')
                   ∧ Err (w_store w') (errBackground g' l') = None).
Proof.
  split; [done|]. split; [done|].
  intros children w. unfold withError.
  destruct (merge_ok children w) as (g' & w1 & Hm & Hbg).
  unfold mbind, M_bind. rewrite Hm. unfold_M.
  eexists g', _, _. split; [reflexivity|]. split.
  - intros child Hin. rewrite Hbg. by apply elem_of_omap_id.
  - simpl. apply lookup_delete_eq.
Qed.

Lemma errBackground_Err_own_witness :
  ∃ child w1 leaf w2,
    withError (Some err1) [] init_world = Ok child w1
    ∧ withError None [Some child] w1 = Ok leaf w2
    ∧ Err (w_store w2) child = Some err1
    ∧ Err (w_store w2) leaf = None
    ∧ (∀ g, embedded leaf = Some g → group_Err (w_store w2) g = Some err1).
Proof.
  destruct (proj2 (proj2 (errBackground_Err_own init_store no_children 0))
              [Some (errBackground no_children 1)]
              (World (Store ∅ ∅ (<[1 := err1]> ∅) 2) [])) as (g' & l' & w' & Hw & Hin & Hnil).
  eexists _, _, _, _. split; [reflexivity|].
  split; [exact Hw|]. split; [|split].
  - vm_compute in Hw. injection Hw as <- <- <-. reflexivity.
  - exact Hnil.
  - vm_compute in Hw. injection Hw as <- <- <-. intros g [= <-]. reflexivity.
Defined.

(** ** Value keys *)

(** C9: [withValue] panics on a nil key and on a key whose dynamic type is
    not comparable, and in both cases builds no leaf; for every other key
    it returns the leaf over the merged children that stores exactly the
    given key and value. *)
Theorem withValue_key_check (key value : any) (children : list (option Background))
    (w : world) :
  (key = None → withValue key value children w = Panic "nil background value key")
  ∧ (∀ k, key = Some k → Comparable (dyn_type k) = false →
       withValue key value children w = Panic "background value key is not comparable")
  ∧ (∀ k, key = Some k → Comparable (dyn_type k) = true →
       ∃ g w', merge children w = Ok g w'
               ∧ withValue key value children w = Ok (valueBackground g key value) w').
Proof.
  split_and!.
  - by intros ->.
  - intros k -> Hk. unfold withValue. by rewrite Hk.
  - intros k -> Hk. unfold withValue. rewrite Hk. simpl.
    destruct (merge_ok children w) as (g & w' & Hm & _).
    exists g, w'. split; [done|]. unfold mbind, M_bind. by rewrite Hm.
Qed.

Lemma withValue_key_check_witness :
  withValue None test_value1 [] init_world = Panic "nil background value key"
  ∧ withValue (Some (Iface TFunc (DRef 7))) test_value1 [] init_world
    = Panic "background value key is not comparable"
  ∧ ∃ g w', merge [] init_world = Ok g w'
            ∧ withValue test_key test_value1 [] init_world
              = Ok (valueBackground g test_key test_value1) w'.
Proof.
  split_and!.
  - exact (proj1 (withValue_key_check None test_value1 [] init_world) eq_refl).
  - exact (proj1 (proj2 (withValue_key_check (Some (Iface TFunc (DRef 7))) test_value1 []
                           init_world)) _ eq_refl eq_refl).
  - exact (proj2 (proj2 (withValue_key_check test_key test_value1 [] init_world))
             _ eq_refl eq_refl).
Defined.

(** ** Stores only grow *)

Lemma grows_refl σ : grows σ σ.
Proof. unfold grows. set_solver. Qed.

Lemma grows_trans σ1 σ2 σ3 : grows σ1 σ2 → grows σ2 σ3 → grows σ1 σ3.
Proof. unfold grows. set_solver. Qed.

Lemma grows_close_chan c σ : grows σ (close_chan c σ).
Proof. unfold grows, close_chan. simpl. set_solver. Qed.

Lemma grows_delete_key m i σ : grows σ (delete_key m i σ).
Proof. unfold grows, delete_key. simpl. set_solver. Qed.

Lemma is_closed_grows σ σ' c :
  grows σ σ' → is_closed σ c = true → is_closed σ' c = true.
Proof.
  unfold grows, is_closed. intros Hg.
  rewrite !orb_true_iff, !bool_decide_eq_true.
  intros [Hc | Hc]; [by left | right; by apply Hg].
Qed.


Lemma is_closed_close_chan c σ : is_closed (close_chan c σ) c = true.
Proof.
  unfold is_closed, close_chan. simpl.
  rewrite orb_true_iff, !bool_decide_eq_true. set_solver.
Qed.

Lemma is_closed_closedchan σ : is_closed σ closedchan = true.
Proof. done. Qed.

Lemma completes_last_store o σ : completes o = Some σ → last_store o = Some σ.
Proof. by destruct o. Qed.

Lemma exec_grows a σ p t o :
  exec a σ p t o → ∀ σ', last_store o = Some σ' → grows σ σ'.
Proof.
  induction 1; intros s Hlast; simpl in *; simplify_eq;
    try apply grows_refl; try (by auto).
  - eapply grows_trans; [done | auto].
  - eapply grows_trans; [apply grows_close_chan | auto].
  - eapply grows_trans; [apply IHexec1; reflexivity | auto].
  - eapply grows_trans; [apply IHexec1; by apply completes_last_store | auto].
  - eapply grows_trans; [apply IHexec1; by apply completes_last_store | auto].
  - eapply grows_trans; [apply grows_delete_key | auto].
Qed.

Lemma exec_completes_grows a σ p t o σ' :
  exec a σ p t o → completes o = Some σ' → grows σ σ'.
Proof. eauto using exec_grows, completes_last_store. Qed.

(** ** The interpreter computes executions *)

Lemma run_sound n : ∀ a σ p t o,
  run n σ p = Some (t, o) → exec a σ p t o.
Proof.
  induction n as [|n IH]; intros a σ p t o Hrun; [done|].
  destruct p as [|i p]; simpl in Hrun.
  { simplify_eq. constructor. }
  destruct i.
  - destruct (is_closed σ c) eqn:Hc.
    + simplify_eq. by constructor.
    + destruct (run n (close_chan c σ) p) as [[t' o']|] eqn:E; simplify_eq/=.
      apply exec_close; auto.
  - destruct (is_closed σ c) eqn:Hc.
    + destruct (run n σ p) as [[t' o']|] eqn:E; simplify_eq/=.
      apply exec_recv; auto.
    + simplify_eq. by constructor.
  - destruct (is_closed σ c) eqn:Hc.
    + apply exec_select_ready; auto.
    + apply exec_select_default; auto.
  - simplify_eq. constructor.
  - destruct (run n σ body) as [[t1 o1]|] eqn:E1; simplify_eq/=.
    destruct o1 as [σ1| | |];
      try (simplify_eq; apply exec_locked_abort; [auto | done]).
    destruct (run n σ1 p) as [[t2 o2]|] eqn:E2; simplify_eq/=.
    eapply exec_locked; eauto.
  - destruct (run n σ body) as [[tg og]|] eqn:E1; simplify_eq/=.
    destruct (run n σ p) as [[t' o']|] eqn:E2; simplify_eq/=.
    eapply exec_go; eauto using grows_refl.
  - destruct (run n σ (group_close g)) as [[sub o1]|] eqn:E1; simplify_eq/=.
    destruct (completes o1) as [σ1|] eqn:Hc.
    + destruct (run n σ1 p) as [[t' o']|] eqn:E2; simplify_eq/=.
      eapply exec_call_group; eauto.
    + simplify_eq. eapply exec_call_group_abort; eauto.
  - destruct (run n σ (close b)) as [[sub o1]|] eqn:E1; simplify_eq/=.
    destruct (completes o1) as [σ1|] eqn:Hc.
    + destruct (run n σ1 p) as [[t' o']|] eqn:E2; simplify_eq/=.
      eapply exec_call; eauto.
    + simplify_eq. eapply exec_call_abort; eauto.
  - destruct (toClose g) as [m|] eqn:Hm.
    + destruct (elements (tracked σ m)) as [|i rest] eqn:He.
      * apply elements_empty_inv in He. apply leibniz_equiv in He.
        eapply exec_range_done; eauto.
      * assert (i ∈ tracked σ m).
        { apply elem_of_elements. rewrite He. left. }
        destruct (backgrounds g !! i) as [b|] eqn:Hb.
        -- eapply exec_range_iter; eauto.
        -- simplify_eq. eapply exec_range_index; eauto.
    + apply exec_range_nil; auto.
  - destruct (run n (delete_key m i σ) p) as [[t' o']|] eqn:E; simplify_eq/=.
    apply exec_delete; auto.
Qed.

(** ** Reading an execution statement by statement

    Each lemma says what an execution of a body that starts with a given
    statement looks like; [σ'] is the store in which the statement ran,
    after whatever the other goroutines did first. *)

(** Inverts an execution of the body [q], folding the steps of the other
    goroutines that precede its first statement into the store. *)
Ltac inv_exec H q :=
  remember q as prog eqn:Eprog in H;
  induction H; simplify_eq;
  try lazymatch goal with
      | IHx : ?q0 = ?q0 → _, Hgrow : grows _ _ |- _ =>
          destruct (IHx eq_refl) as (σ0 & Hg0 & Hat & Hrest);
          exists σ0; split; [by eapply grows_trans|]; split; [done|]; exact Hrest
      end.

Lemma exec_inv_nil a σ t o :
  exec a σ [] t o →
  ∃ σ', grows σ σ' ∧ (a = true → σ' = σ) ∧ t = [] ∧ o = Finished σ'.
Proof.
  intros H. inv_exec H (@nil instr).
  exists σ. eauto using grows_refl.
Qed.

Lemma exec_inv_return a σ p t o :
  exec a σ (IReturn :: p) t o →
  ∃ σ', grows σ σ' ∧ (a = true → σ' = σ) ∧ t = [] ∧ o = Returned σ'.
Proof.
  intros H. inv_exec H (IReturn :: p).
  exists σ. eauto using grows_refl.
Qed.

Lemma exec_inv_close a σ c p t o :
  exec a σ (IClose c :: p) t o →
  ∃ σ', grows σ σ' ∧ (a = true → σ' = σ) ∧
    ((is_closed σ' c = true ∧ t = [] ∧ o = Panicked "close of closed channel")
     ∨ (is_closed σ' c = false ∧
        ∃ t', t = EClose c σ' :: t' ∧ exec a (close_chan c σ') p t' o)).
Proof.
  intros H. inv_exec H (IClose c :: p).
  - exists σ. split; [apply grows_refl|]. split; [done|]. right. eauto.
  - exists σ. split; [apply grows_refl|]. split; [done|]. left. eauto.
Qed.

Lemma exec_inv_recv a σ c p t o :
  exec a σ (IRecv c :: p) t o →
  ∃ σ', grows σ σ' ∧ (a = true → σ' = σ) ∧
    ((is_closed σ' c = false ∧ t = [] ∧ o = Blocked c σ')
     ∨ (is_closed σ' c = true ∧ ∃ t', t = ERecv c σ' :: t' ∧ exec a σ' p t' o)).
Proof.
  intros H. inv_exec H (IRecv c :: p).
  - exists σ. split; [apply grows_refl|]. split; [done|]. right. eauto.
  - exists σ. split; [apply grows_refl|]. split; [done|]. left. eauto.
Qed.

Lemma exec_inv_select a σ c r d p t o :
  exec a σ (ISelect c r d :: p) t o →
  ∃ σ', grows σ σ' ∧ (a = true → σ' = σ) ∧
    exec a σ' ((if is_closed σ' c then r else d) ++ p) t o.
Proof.
  intros H. inv_exec H (ISelect c r d :: p).
  - exists σ. split; [apply grows_refl|]. split; [done|].
    by match goal with Hc : is_closed _ _ = _ |- _ => rewrite Hc end.
  - exists σ. split; [apply grows_refl|]. split; [done|].
    by match goal with Hc : is_closed _ _ = _ |- _ => rewrite Hc end.
Qed.

Lemma exec_inv_locked a σ body p t o :
  exec a σ (ILocked body :: p) t o →
  ∃ σ', grows σ σ' ∧ (a = true → σ' = σ) ∧
    ∃ t1 o1, exec true σ' body t1 o1 ∧
      ((∃ σ1 t2, o1 = Finished σ1 ∧ t = t1 ++ t2 ∧ exec a σ1 p t2 o)
       ∨ ((∀ σ1, o1 ≠ Finished σ1) ∧ t = t1 ∧ o = o1)).
Proof.
  intros H. inv_exec H (ILocked body :: p).
  - exists σ. split; [apply grows_refl|]. split; [done|].
    eexists _, _. split; [eassumption|]. left. eauto.
  - exists σ. split; [apply grows_refl|]. split; [done|].
    eexists _, _. split; [eassumption|]. right. eauto.
Qed.

Lemma exec_inv_go a σ body p t o :
  exec a σ (IGo body :: p) t o →
  ∃ σ', grows σ σ' ∧ (a = true → σ' = σ) ∧
    ∃ σg tg og t', grows σ' σg ∧ exec false σg body tg og ∧
      t = EGo body σg tg og :: t' ∧ exec a σ' p t' o.
Proof.
  intros H. inv_exec H (IGo body :: p).
  exists σ. split; [apply grows_refl|]. split; [done|].
  eexists _, _, _, _. eauto.
Qed.

Lemma exec_inv_call_group a σ g p t o :
  exec a σ (ICallGroup g :: p) t o →
  ∃ σ', grows σ σ' ∧ (a = true → σ' = σ) ∧
    ∃ sub o1, exec a σ' (group_close g) sub o1 ∧
      ((completes o1 = None ∧ t = [ECallGroup g σ' sub] ∧ o = o1)
       ∨ (∃ σ1 t', completes o1 = Some σ1 ∧ t = ECallGroup g σ' sub :: t' ∧
                   exec a σ1 p t' o)).
Proof.
  intros H. inv_exec H (ICallGroup g :: p).
  - exists σ. split; [apply grows_refl|]. split; [done|].
    eexists _, _. split; [eassumption|]. right. eauto.
  - exists σ. split; [apply grows_refl|]. split; [done|].
    eexists _, _. split; [eassumption|]. left. eauto.
Qed.

Lemma exec_inv_call a σ b p t o :
  exec a σ (ICall b :: p) t o →
  ∃ σ', grows σ σ' ∧ (a = true → σ' = σ) ∧
    ∃ sub o1, exec a σ' (close b) sub o1 ∧
      ((completes o1 = None ∧ t = [ECall b σ' sub] ∧ o = o1)
       ∨ (∃ σ1 t', completes o1 = Some σ1 ∧ t = ECall b σ' sub :: t' ∧
                   exec a σ1 p t' o)).
Proof.
  intros H. inv_exec H (ICall b :: p).
  - exists σ. split; [apply grows_refl|]. split; [done|].
    eexists _, _. split; [eassumption|]. right. eauto.
  - exists σ. split; [apply grows_refl|]. split; [done|].
    eexists _, _. split; [eassumption|]. left. eauto.
Qed.

Lemma exec_inv_delete a σ m i p t o :
  exec a σ (IDelete m i :: p) t o →
  ∃ σ', grows σ σ' ∧ (a = true → σ' = σ) ∧
    ∃ t', t = EDelete m i σ' :: t' ∧ exec a (delete_key m i σ') p t' o.
Proof.
  intros H. inv_exec H (IDelete m i :: p).
  exists σ. split; [apply grows_refl|]. split; [done|]. eauto.
Qed.

Lemma exec_inv_range a σ g p t o :
  exec a σ (IRange g :: p) t o →
  ∃ σ', grows σ σ' ∧ (a = true → σ' = σ) ∧
    ((toClose g = None ∧ exec a σ' p t o)
     ∨ ∃ m, toClose g = Some m ∧
         ((tracked σ' m = ∅ ∧ exec a σ' p t o)
          ∨ ∃ i, i ∈ tracked σ' m ∧
              ((backgrounds g !! i = None ∧ t = [] ∧ o = Panicked "index out of range")
               ∨ ∃ b, backgrounds g !! i = Some b ∧
                   exec a σ' (IRecv (finishSig b) :: ILocked [IDelete m i] :: IRange g :: p)
                        t o))).
Proof.
  intros H. inv_exec H (IRange g :: p).
  - exists σ. split; [apply grows_refl|]. split; [done|]. left. eauto.
  - exists σ. split; [apply grows_refl|]. split; [done|]. right.
    eexists. split; [eassumption|]. left. eauto.
  - exists σ. split; [apply grows_refl|]. split; [done|]. right.
    eexists. split; [eassumption|]. right. eexists. split; [eassumption|]. left. eauto.
  - exists σ. split; [apply grows_refl|]. split; [done|]. right.
    eexists. split; [eassumption|]. right. eexists. split; [eassumption|]. right. eauto.
Qed.

(** ** Closing a dependency *)

Lemma fire_once_atomic σ c t o :
  exec true σ [ISelect c [] [IClose c]] t o →
  (is_closed σ c = true ∧ t = [] ∧ o = Finished σ)
  ∨ (is_closed σ c = false ∧ t = [EClose c σ] ∧ o = Finished (close_chan c σ)).
Proof.
  intros H. apply exec_inv_select in H as (σ' & _ & Hσ & H).
  rewrite (Hσ eq_refl) in *. clear Hσ σ'.
  destruct (is_closed σ c) eqn:Hc; simpl in H.
  - apply exec_inv_nil in H as (σ' & _ & Hσ & -> & ->).
    rewrite (Hσ eq_refl). by left.
  - apply exec_inv_close in H as (σ' & _ & Hσ & H).
    rewrite (Hσ eq_refl) in *. clear Hσ σ'.
    destruct H as [(Hc' & _) | (_ & t' & -> & H)]; [congruence|].
    apply exec_inv_nil in H as (σ' & _ & Hσ & -> & ->).
    rewrite (Hσ eq_refl). by right.
Qed.

Lemma exec_call_free a σ p t o :
  exec a σ p t o →
  forallb call_free p = true →
  forallb plain_event t = true.
Proof.
  induction 1; simpl; intros Hp; try done;
    repeat match goal with
           | H : _ && _ = true |- _ => apply andb_true_iff in H as [? ?]
           end;
    try (by auto).
  - apply IHexec. rewrite forallb_app. by apply andb_true_iff.
  - apply IHexec. rewrite forallb_app. by apply andb_true_iff.
  - rewrite forallb_app. apply andb_true_iff. auto.
Qed.

(** C1: a call of [close()] on a dependency first requests close on the
    children group, then waits for the children's finished signal, only
    then requests close on the parent, then waits for the parent's
    finished signal, and only then fires its own finished signal; the
    children's finished signal has fired in the store in which the parent's
    close is requested. *)
Theorem dependBackground_close_order (children : group) (parent : Background)
    (f : chan) (σ : store) (t : list event) (o : outcome) :
  exec false σ (close (dependBackground children parent f)) t o →
  depend_close_stages children parent f σ t o.
Proof.
  intros H. simpl in H. unfold depend_close_stages.
  apply exec_inv_call_group in H as (σ0 & Hg0 & _ & sub & oc & Hsub & H).
  exists σ0, sub, oc. split; [done|]. split; [done|].
  split; [by apply (exec_call_free _ _ _ _ _ Hsub)|].
  destruct H as [(Hoc & -> & ->) | (σ1' & t1 & Hoc & -> & H)]; [by left|].
  apply exec_inv_recv in H as (σ1 & Hg1 & _ & H).
  destruct H as [(_ & -> & ->) | (Hcf & t2 & -> & H)]; [by left|].
  right.
  apply exec_inv_call in H as (σ2 & Hg2 & _ & subp & op & Hsubp & H).
  exists σ1, σ2, subp, op.
  assert (grows σ0 σ1).
  { eapply grows_trans; [|exact Hg1]. eapply exec_completes_grows; eauto. }
  split_and!; try done.
  { by eapply is_closed_grows. }
  destruct H as [(Hop & -> & ->) | (σ2' & t3 & Hop & -> & H)]; [by left|].
  apply exec_inv_recv in H as (σ3 & Hg3 & _ & H).
  destruct H as [(_ & -> & ->) | (Hpf & t4 & -> & H)]; [by left|].
  right.
  unfold fire_once in H.
  apply exec_inv_locked in H as (σ4 & Hg4 & _ & tl & ol & Hl & H).
  apply fire_once_atomic in Hl.
  assert (grows σ2 σ3).
  { eapply grows_trans; [|exact Hg3]. eapply exec_completes_grows; eauto. }
  assert (is_closed σ4 (finished children) = true).
  { eapply is_closed_grows; [|exact Hcf].
    eauto using grows_trans. }
  assert (is_closed σ4 (finishSig parent) = true).
  { by eapply is_closed_grows. }
  destruct Hl as [(Hf & -> & ->) | (Hf & -> & ->)].
  - destruct H as [(σ5' & t5 & [= <-] & -> & H) | (Hne & _)];
      [|by destruct (Hne σ4)].
    apply exec_inv_nil in H as (σ5 & Hg5 & _ & -> & ->).
    exists σ3, σ4, σ5. split_and!; try done.
    { by eapply is_closed_grows. }
    by left.
  - destruct H as [(σ5' & t5 & [= <-] & -> & H) | (Hne & _)];
      [|by destruct (Hne (close_chan f σ4))].
    apply exec_inv_nil in H as (σ5 & Hg5 & _ & -> & ->).
    exists σ3, σ4, σ5. split_and!; try done.
    { eapply grows_trans; [apply grows_close_chan | done]. }
    { eapply is_closed_grows; [done | apply is_closed_close_chan]. }
    by right.
Qed.

Lemma dependBackground_close_order_witness :
  ∃ t o,
    run 40 sample_done_store (close sample_depend) = Some (t, o)
    ∧ closes t = [13; 14; 15; 17]
    ∧ depend_close_stages sample_children sample_parent 17 sample_done_store t o.
Proof.
  destruct (run 40 sample_done_store (close sample_depend)) as [[t o]|] eqn:E.
  - exists t, o. split; [done|]. split.
    + vm_compute in E. injection E as <- <-. reflexivity.
    + apply dependBackground_close_order.
      exact (run_sound 40 false _ _ _ _ E).
  - vm_compute in E. discriminate E.
Defined.

(** ** Repeated calls *)

Lemma closes_nil : closes [] = [].
Proof. done. Qed.

Lemma closes_cons e t : closes (e :: t) = event_closes e ++ closes t.
Proof. done. Qed.

Lemma closes_app t1 t2 : closes (t1 ++ t2) = closes t1 ++ closes t2.
Proof. unfold closes. by rewrite map_app, concat_app. Qed.

Lemma crashed_nil o : crashed [] o = is_panic o.
Proof. unfold crashed. simpl. by rewrite orb_false_r. Qed.

(** One call of [Done()] or [Ok()] on the channel [c]. *)
Lemma fire_once_exec a σ c p t o :
  exec a σ (fire_once c ++ p) t o →
  ∃ σ1 σ2 t', grows σ σ1 ∧ (a = true → σ1 = σ) ∧
    is_closed σ2 c = true ∧ exec a σ2 p t' o ∧
    ((is_closed σ1 c = true ∧ σ2 = σ1 ∧ t = t')
     ∨ (is_closed σ1 c = false ∧ σ2 = close_chan c σ1 ∧ t = EClose c σ1 :: t')).
Proof.
  intros H. simpl in H.
  apply exec_inv_locked in H as (σ1 & Hg & Hat & tl & ol & Hl & H).
  apply fire_once_atomic in Hl.
  destruct Hl as [(Hc & -> & ->) | (Hc & -> & ->)].
  - destruct H as [(σ2 & t' & [= <-] & -> & H) | (Hne & _)]; [|by destruct (Hne σ1)].
    exists σ1, σ1, t'. split_and!; auto.
  - destruct H as [(σ2 & t' & [= <-] & -> & H) | (Hne & _)];
      [|by destruct (Hne (close_chan c σ1))].
    exists σ1, (close_chan c σ1), t'. split_and!; auto using is_closed_close_chan.
Qed.




(** A call of [group.close()] after [done] has been closed returns at the
    guard. *)
Lemma group_close_again a σ g t o :
  is_closed σ (done g) = true →
  exec a σ (group_close g) t o →
  t = [] ∧ ∃ σ', o = Returned σ' ∧ grows σ σ'.
Proof.
  intros Hd H. unfold group_close in H.
  apply exec_inv_locked in H as (σ1 & Hg & _ & tl & ol & Hl & H).
  apply exec_inv_select in Hl as (σ1' & _ & Hσ & Hl).
  rewrite (Hσ eq_refl) in *. clear Hσ σ1'.
  rewrite (is_closed_grows _ _ _ Hg Hd) in Hl. simpl in Hl.
  apply exec_inv_return in Hl as (σ1' & _ & Hσ & -> & ->).
  rewrite (Hσ eq_refl) in *.
  destruct H as [(σ2 & t2 & [=] & _) | (_ & -> & ->)]. eauto.
Qed.







(** ** Closing a merged group *)

(** C3 (what the code does on [merge(nil, leaf)]): [merge] keeps the one
    non-nil child at index 0 of [backgrounds] but tracks it under its
    argument index 1, and [close()] on the group panics on
    [g.backgrounds[1]]. *)
Theorem merge_nil_child_close_panics :
  ∃ leaf g w t,
    nil_then_leaf init_world = Ok (leaf, g) w
    ∧ backgrounds g = [leaf]
    ∧ (∃ m, toClose g = Some m ∧ tracked (w_store w) m = {[1]})
    ∧ is_closed (w_store w) (finishSig leaf) = false
    ∧ run 20 (w_store w) (group_close g) = Some (t, Panicked "index out of range")
    ∧ (∀ t' o', exec true (w_store w) (group_close g) t' o' →
                o' = Panicked "index out of range").
Proof.
  eexists _, _, _, _. split; [vm_compute; reflexivity|].
  split; [reflexivity|]. split.
  { eexists. split; [reflexivity|]. vm_compute. reflexivity. }
  split; [vm_compute; reflexivity|].
  split; [vm_compute; reflexivity|].
  intros t' o' H. unfold group_close in H.
  apply exec_inv_locked in H as (σ1 & _ & Hσ & tl & ol & Hl & H).
  rewrite (Hσ eq_refl) in *. clear Hσ σ1.
  apply exec_inv_select in Hl as (σ1 & _ & Hσ & Hl).
  rewrite (Hσ eq_refl) in *. clear Hσ σ1.
  simpl in Hl.
  apply exec_inv_close in Hl as (σ1 & _ & Hσ & Hl).
  rewrite (Hσ eq_refl) in *. clear Hσ σ1.
  destruct Hl as [(Hc & _) | (_ & t1 & -> & Hl)]; [by vm_compute in Hc|].
  apply exec_inv_nil in Hl as (σ1 & _ & Hσ & -> & ->).
  rewrite (Hσ eq_refl) in *. clear Hσ σ1.
  destruct H as [(σ2 & t2 & [= <-] & -> & H) | (Hne & _)];
    [|by edestruct Hne].
  apply exec_inv_range in H as (σ1 & _ & Hσ & H).
  rewrite (Hσ eq_refl) in *. clear Hσ σ1.
  destruct H as [([=] & _) | (m & [= <-] & H)].
  destruct H as [(Hempty & _) | (i & Hi & H)].
  { exfalso. vm_compute in Hempty. discriminate Hempty. }
  destruct H as [(_ & _ & ->) | (b & Hb & _)]; [done|].
  exfalso.
  assert (i = 1).
  { match type of Hi with
    | _ ∈ ?X => assert (HX : X = {[1]}) by (vm_compute; reflexivity);
                rewrite HX in Hi
    end.
    by apply elem_of_singleton in Hi. }
  subst i. discriminate Hb.
Qed.

(** On [merge(nil, a, b)] with [b] already finished, the group tracks [a]
    under index 1, where [backgrounds] holds [b]: [close()] never waits for
    [a] and fires the group's finished signal while [a] is unfinished. *)
Lemma merge_nil_child_close_skips :
  ∃ a b g w t σ',
    nil_then_two init_world = Ok (a, b, g) w
    ∧ backgrounds g = [a; b]
    ∧ (∃ m, toClose g = Some m ∧ tracked (w_store w) m = {[1]})
    ∧ run 20 (w_store w) (group_close g) = Some (t, Finished σ')
    ∧ is_closed σ' (finished g) = true
    ∧ is_closed σ' (finishSig a) = false.
Proof.
  eexists _, _, _, _, _, _. split; [vm_compute; reflexivity|].
  split; [reflexivity|]. split.
  { eexists. split; [reflexivity|]. vm_compute. reflexivity. }
  split; [vm_compute; reflexivity|].
  split; vm_compute; reflexivity.
Qed.

Lemma tracked_insert_key m i σ : tracked (insert_key m i σ) m = {[i]} ∪ tracked σ m.
Proof. unfold tracked, insert_key. simpl. by rewrite lookup_insert_eq. Qed.

Lemma is_closed_insert_key m i σ c : is_closed (insert_key m i σ) c = is_closed σ c.
Proof. done. Qed.

(** What the loop of [merge] adds to the tracked set: the argument
    indices of the non-nil children that are not finished. *)
Lemma merge_loop_tracked done m bgs : ∀ i ss w ss' w',
  merge_loop done m i bgs ss w = Ok ss' w' →
  closed_chans (w_store w') = closed_chans (w_store w)
  ∧ ∀ k, k ∈ tracked (w_store w') m ↔
         k ∈ tracked (w_store w) m
         ∨ ∃ j s, k = i + j ∧ bgs !! j = Some (Some s)
                  ∧ is_closed (w_store w) (finishSig s) = false.
Proof.
  induction bgs as [|[s|] bgs IH]; intros i ss w ss' w' H; simpl in H.
  - unfold_M. simplify_eq. split; [done|]. intros k. split; [auto|].
    intros [?|(j & s & _ & Hj & _)]; [done|]. by rewrite lookup_nil in Hj.
  - unfold_M. destruct (is_closed (w_store w) (finishSig s)) eqn:Hc; simpl in H.
    + apply IH in H as [Hcl Htr]. split; [done|]. intros k. rewrite Htr.
      split.
      * intros [?|(j & s' & -> & Hj & Hs')]; [by left|].
        right. exists (S j), s'. split; [lia|]. done.
      * intros [?|(j & s' & -> & Hj & Hs')]; [by left|].
        destruct j as [|j]; simpl in Hj; [congruence|].
        right. exists j, s'. split; [lia|]. done.
    + apply IH in H as [Hcl Htr]. simpl in *. split; [done|]. intros k.
      rewrite Htr, tracked_insert_key. split.
      * intros [Hk|(j & s' & -> & Hj & Hs')].
        -- apply elem_of_union in Hk as [Hk|Hk]; [|by left].
           apply elem_of_singleton in Hk as ->.
           right. exists 0, s. split; [lia|]. done.
        -- right. exists (S j), s'. split; [lia|]. done.
      * intros [?|(j & s' & -> & Hj & Hs')];
          [left; apply elem_of_union; by right|].
        destruct j as [|j]; simpl in Hj.
        -- left. replace (i + 0) with i by lia.
           apply elem_of_union. left. by apply elem_of_singleton.
        -- right. exists j, s'. split; [lia|]. done.
  - apply IH in H as [Hcl Htr]. split; [done|]. intros k. rewrite Htr.
    split.
    + intros [?|(j & s' & -> & Hj & Hs')]; [by left|].
      right. exists (S j), s'. split; [lia|]. done.
    + intros [?|(j & s' & -> & Hj & Hs')]; [by left|].
      destruct j as [|j]; simpl in Hj; [congruence|].
      right. exists j, s'. split; [lia|]. done.
Qed.

Lemma merge_nonempty bgs w :
  bgs ≠ [] →
  merge bgs w =
    (done ← make_chan; finished ← make_chan; m ← make_map;
     ss ← merge_loop done m 0 bgs [];
     mret (Group ss (Some m) done finished)) w.
Proof. by destruct bgs. Qed.

(** When no argument of [merge] is nil, argument indices and indices into
    [backgrounds] agree: every tracked index is that of a kept child which
    was unfinished at merge time. *)
Lemma merge_no_nil_indices_valid (l : list Background) (w w' : world) (g : group) :
  merge (Some <$> l) w = Ok g w' →
  backgrounds g = l
  ∧ ∀ m k, toClose g = Some m → k ∈ tracked (w_store w') m →
           ∃ s, backgrounds g !! k = Some s
                ∧ is_closed (w_store w) (finishSig s) = false.
Proof.
  intros H. destruct l as [|b l].
  { simpl in H. unfold_M. simplify_eq. split; [done|]. intros m k [=]. }
  rewrite merge_nonempty in H by done.
  revert H. generalize (b :: l). clear b l. intros l H.
  unfold make_chan, make_map, get_store, modify_store, mbind, M_bind, mret, M_ret in H.
  cbn beta iota in H.
  match type of H with
  | context [merge_loop ?d ?m ?i ?bgs ?ss ?w0] =>
      destruct (merge_loop_ok d m bgs i ss w0) as [w1 Hok];
      pose proof (merge_loop_tracked d m bgs i ss w0 _ _ Hok) as [Hcl Htr]
  end.
  rewrite Hok in H. simplify_eq. simpl.
  assert (Hl : omap id (Some <$> l) = l).
  { clear. induction l; simpl; [done | by f_equal]. }
  split; [done|].
  intros m k [= <-] Hk. apply Htr in Hk. simpl in Hk.
  destruct Hk as [Hk|(j & s & -> & Hj & Hs)].
  - unfold tracked in Hk. simpl in Hk. rewrite lookup_insert_eq in Hk.
    simpl in Hk. set_solver.
  - exists s. rewrite Hl. rewrite list_lookup_fmap in Hj.
    destruct (l !! j) eqn:E; simplify_eq/=. split; [done|].
    exact Hs.
Qed.

(** ** The cause walk and the shutdown protocol *)

Lemma first_non_nil_Some {A B} (f : A → option B) (l : list A) (r : B) :
  first_non_nil f l = Some r → ∃ x, x ∈ l ∧ f x = Some r.
Proof.
  induction l as [|a l IH]; simpl; [done|].
  destruct (f a) as [r'|] eqn:Ea.
  - intros [= ->]. exists a. split; [left | done].
  - intros H. destruct (IH H) as (x & Hx & Hfx). exists x. split; [by right | done].
Qed.

Lemma first_non_nil_None {A B} (f : A → option B) (l : list A) :
  first_non_nil f l = None ↔ Forall (λ x, f x = None) l.
Proof.
  induction l as [|a l IH]; simpl; [by split; [constructor|]|].
  destruct (f a) as [r'|] eqn:Ea.
  - split; [done|]. intros H. apply Forall_cons in H as [H _]. congruence.
  - rewrite IH. split; [by constructor|]. intros H. by apply Forall_cons in H as [_ H].
Qed.

Lemma errors_Is_annotate (h : nat) (labels : list string) (e target : error) :
  errors_Is e target = Some true →
  errors_Is (annotate h labels e) target = Some true.
Proof.
  intros He. induction labels as [|a labels IH]; simpl; [done|].
  by apply (Errorf_annot_spec _ a _).
Qed.


Lemma errors_Is_annotate_self (h : nat) (labels : list string) (e : error) :
  errors_Is (annotate h labels e) e = errors_Is e e.
Proof.
  induction labels as [|a labels IH]; [done|].
  change (annotate h (a :: labels) e)
    with (Errorf_annot (h + wraps (annotate h labels e)) a (annotate h labels e)).
  unfold Errorf_annot.
  match goal with
  | |- errors_Is (wrapError ?addr ?msg ?inner) _ = _ =>
      destruct (errors_Is_wrapper addr msg inner e) as [H|[H Hp]]
  end.
  - by rewrite H.
  - rewrite H. symmetry. by apply errors_Is_pointer.
Qed.

(** A non-nil cause is [ErrTimeout] wrapped by the annotations on a path
    to a shutdown leaf that has not signalled done. *)
Lemma cause_path (σ : store) (b : Background) : ∀ e,
  cause σ b = Some e →
  ∃ labels, unfinished_path σ b labels ∧ e = annotate (next σ) labels ErrTimeout.
Proof.
  induction b as [|children parent f IHc IHp|b g Hg IH] using Background_tree_ind;
    intros e He.
  - done.
  - simpl in He.
    destruct (first_non_nil (cause σ) (backgrounds children)) as [e'|] eqn:Ec.
    + injection He as ->.
      apply first_non_nil_Some in Ec as (child & Hin & Hchild).
      rewrite Forall_forall in IHc.
      destruct (IHc child Hin e Hchild) as (labels & Hp & ->).
      exists labels. split; [|done]. by eapply path_depend_child.
    + destruct (IHp e He) as (labels & Hp & ->).
      exists labels. split; [|done]. by apply path_depend_parent.
  - rewrite Forall_forall in IH.
    assert (Hgen : ∀ e', first_non_nil (cause σ) (backgrounds g) = Some e' →
              ∃ child labels, child ∈ backgrounds g ∧ unfinished_path σ child labels
                              ∧ e' = annotate (next σ) labels ErrTimeout).
    { intros e' Ec. apply first_non_nil_Some in Ec as (child & Hin & Hchild).
      destruct (IH child Hin e' Hchild) as (labels & Hp & ->). eauto. }
    destruct b; simpl in Hg; simplify_eq; simpl in He;
      try (destruct (Hgen e He) as (child & labels & Hin & Hp & ->);
           exists labels; split; [|done];
           by eapply path_child; [reflexivity | | exact Hin | exact Hp]).
    + destruct (first_non_nil (cause σ) (backgrounds g)) as [e'|] eqn:Ec.
      * injection He as ->.
        destruct (Hgen e eq_refl) as (child & labels & Hin & Hp & ->).
        exists labels. split; [|done].
        by eapply path_child; [reflexivity | | exact Hin | exact Hp].
      * destruct (is_closed σ sdone) eqn:Hd; [done|]. injection He as <-.
        exists []. split; [by apply path_here | done].
    + destruct (first_non_nil (cause σ) (backgrounds g)) as [e'|] eqn:Ec; [|done].
      injection He as <-.
      destruct (Hgen e' eq_refl) as (child & labels & Hin & Hp & ->).
      exists (annotation :: labels). split; [|done]. by eapply path_annotation.
Qed.

Lemma forallb_all_done_cause (σ : store) (l : list Background) :
  Forall (λ b, all_done σ b = true ↔ cause σ b = None) l →
  forallb (all_done σ) l = true ↔ first_non_nil (cause σ) l = None.
Proof.
  intros H. rewrite first_non_nil_None, forallb_forall, Forall_forall.
  rewrite Forall_forall in H.
  split; intros Hall x Hx.
  - apply H; [done|]. apply Hall. by apply list_elem_of_In.
  - apply list_elem_of_In in Hx. apply H; [done|]. by apply Hall.
Qed.

(** The cause is nil exactly when every shutdown leaf has signalled done. *)
Lemma cause_all_done (σ : store) (b : Background) :
  all_done σ b = true ↔ cause σ b = None.
Proof.
  induction b as [|children parent f IHc IHp|b g Hg IH] using Background_tree_ind.
  - done.
  - simpl. rewrite andb_true_iff, IHp, (forallb_all_done_cause _ _ IHc).
    destruct (first_non_nil (cause σ) (backgrounds children)); split;
      try tauto; try (intros [? ?]; done); done.
  - pose proof (forallb_all_done_cause _ _ IH) as Hl.
    destruct b; simpl in Hg; simplify_eq; simpl; try exact Hl.
    + rewrite andb_true_iff, Hl.
      destruct (first_non_nil (cause σ) (backgrounds g)).
      * split; [intros [? ?]; done | done].
      * destruct (is_closed σ sdone); split; try done; intros [? ?]; done.
    + rewrite Hl. by destruct (first_non_nil (cause σ) (backgrounds g)).
Qed.



(** * Further properties of the package *)

(** ** Values through the tree *)

Lemma elem_of_concat_map {A B} (f : A → list B) (l : list A) (x : A) (y : B) :
  x ∈ l → y ∈ f x → y ∈ concat (map f l).
Proof.
  induction l as [|a l IH]; intros Hx Hy; [by apply not_elem_of_nil in Hx|].
  simpl. apply elem_of_app. apply elem_of_cons in Hx as [->|Hx]; auto.
Qed.

Lemma first_value_inv {A} (f : A → answer) (l : list A) (r : answer) :
  first_value f l = r → r ≠ Returns None → ∃ x, x ∈ l ∧ f x = r.
Proof.
  induction l as [|a l IH]; simpl; intros Hr Hne; [congruence|].
  destruct (f a) as [[v|]|] eqn:Ea.
  - exists a. split; [left | congruence].
  - destruct (IH Hr Hne) as (x & Hx & Hfx). exists x. split; [by right | done].
  - exists a. split; [left | congruence].
Qed.

(** An answer other than nil comes from the comparison of a value leaf. *)
Lemma Value_source (b : Background) (k : any) : ∀ r,
  Value b k = r → r ≠ Returns None →
  ∃ key v, (key, v) ∈ values b
           ∧ ((r = Returns v ∧ any_eq key k = Some true)
              ∨ (r = Panics ∧ any_eq key k = None)).
Proof.
  induction b as [|children parent f IHc IHp|b g Hg IH] using Background_tree_ind;
    intros r Hr Hne.
  - simpl in Hr. congruence.
  - cbn [Value] in Hr. cbn [values].
    assert (Hpar : ∀ r', Value parent k = r' → r' ≠ Returns None →
              ∃ key v, (key, v) ∈ values parent ++ concat (map values (backgrounds children))
                       ∧ ((r' = Returns v ∧ any_eq key k = Some true)
                          ∨ (r' = Panics ∧ any_eq key k = None))).
    { intros r' Hr' Hne'. destruct (IHp r' Hr' Hne') as (key & v & Hin & Hcase).
      exists key, v. split; [apply elem_of_app; by left | done]. }
    destruct (Value parent k) as [[v'|]|] eqn:Ep.
    + subst r. by apply Hpar.
    + apply first_value_inv in Hr as (child & Hin & Hchild); [|done].
      rewrite Forall_forall in IHc.
      destruct (IHc child Hin r Hchild Hne) as (key & v & Hkv & Hcase).
      exists key, v. split; [|done]. apply elem_of_app. right.
      by eapply elem_of_concat_map.
    + subst r. by apply Hpar.
  - rewrite Forall_forall in IH.
    assert (Hgen : first_value (λ bg, Value bg k) (backgrounds g) = r →
              ∃ key v, (key, v) ∈ concat (map values (backgrounds g))
                       ∧ ((r = Returns v ∧ any_eq key k = Some true)
                          ∨ (r = Panics ∧ any_eq key k = None))).
    { intros Hf. apply first_value_inv in Hf as (child & Hin & Hchild); [|done].
      destruct (IH child Hin r Hchild Hne) as (key & v & Hkv & Hcase).
      exists key, v. split; [|done]. by eapply elem_of_concat_map. }
    destruct b; simpl in Hg; simplify_eq; cbn [Value values] in *;
      try (by apply Hgen).
    destruct (any_eq key k) as [[|]|] eqn:Ek.
    + exists key, value. split; [left|]. left. by split.
    + destruct (Hgen eq_refl) as (key' & v & Hkv & Hcase).
      exists key', v. split; [by right | done].
    + exists key, value. split; [left|]. right. by split.
Qed.

(** X1: [Value(key)] only returns what a value leaf of the tree holds under
    a key equal ([==]) to [key], and it panics only where the comparison
    with the key of a value leaf does; when the comparison with the key of
    every value leaf says no, it returns nil. *)
Theorem Value_stored (b : Background) (k : any) :
  (∀ v, Value b k = Returns (Some v) →
        ∃ key, (key, Some v) ∈ values b ∧ any_eq key k = Some true)
  ∧ ((∀ key v, (key, v) ∈ values b → any_eq key k = Some false) →
     Value b k = Returns None)
  ∧ (Value b k = Panics →
     ∃ key v, (key, v) ∈ values b ∧ any_eq key k = None).
Proof.
  split_and!.
  - intros v Hv.
    destruct (Value_source b k _ Hv ltac:(done)) as (key & v' & Hin & [[[= <-] He]|[[=] _]]).
    eauto.
  - intros Hno. destruct (Value b k) as [[v|]|] eqn:Ev; [|done|].
    + destruct (Value_source b k _ Ev ltac:(done)) as (key & v' & Hin & [[_ He]|[[=] _]]).
      rewrite (Hno _ _ Hin) in He. done.
    + destruct (Value_source b k _ Ev ltac:(done)) as (key & v' & Hin & [[[=] _]|[_ He]]).
      rewrite (Hno _ _ Hin) in He. done.
  - intros Hv.
    destruct (Value_source b k _ Hv ltac:(done)) as (key & v & Hin & [[[=] _]|[_ He]]).
    eauto.
Qed.

Lemma Value_stored_witness :
  (∃ key, (key, test_value1)
          ∈ values (dependBackground
                      (Group [valueBackground no_children test_key test_value2] None 3 4)
                      (valueBackground no_children test_key test_value1) 5)
          ∧ any_eq key test_key = Some true)
  ∧ Value (groupBackground
             (Group [valueBackground no_children test_key test_value2] None 3 4))
          (Some (Iface TString (DString "other"))) = Returns None.
Proof.
  split.
  - apply (proj1 (Value_stored _ test_key)). reflexivity.
  - apply (proj1 (proj2 (Value_stored _ _))).
    intros key v Hin. simpl in Hin.
    apply elem_of_cons in Hin as [[= -> ->]|Hin]; [reflexivity|].
    by apply not_elem_of_nil in Hin.
Defined.

(** ** Errors through the tree *)

(** A non-nil [Err()] is the error stored by an error leaf of the tree,
    wrapped by the annotations above that leaf. *)
Lemma Err_path (σ : store) (b : Background) : ∀ e,
  Err σ b = Some e →
  ∃ labels l e0,
    error_path b labels l ∧ errs σ !! l = Some e0
    ∧ e = annotate (next σ) labels e0.
Proof.
  induction b as [|children parent f IHc IHp|b g Hg IH] using Background_tree_ind;
    intros e He.
  - done.
  - simpl in He. destruct (Err σ parent) as [e'|] eqn:Ep.
    + injection He as ->.
      destruct (IHp e eq_refl) as (labels & l & e0 & Hp & Hl & ->).
      exists labels, l, e0. split_and!; auto. by apply epath_depend_parent.
    + apply first_non_nil_Some in He as (child & Hin & Hchild).
      rewrite Forall_forall in IHc.
      destruct (IHc child Hin e Hchild) as (labels & l & e0 & Hp & Hl & ->).
      exists labels, l, e0. split_and!; auto. by eapply epath_depend_child.
  - rewrite Forall_forall in IH.
    assert (Hgen : ∀ e', first_non_nil (Err σ) (backgrounds g) = Some e' →
              ∃ child labels l e0, child ∈ backgrounds g ∧ error_path child labels l
                ∧ errs σ !! l = Some e0 ∧ e' = annotate (next σ) labels e0).
    { intros e' Hf. apply first_non_nil_Some in Hf as (child & Hin & Hchild).
      destruct (IH child Hin e' Hchild) as (labels & l & e0 & Hp & Hl & ->).
      eauto 10. }
    destruct b; simpl in Hg; simplify_eq; simpl in He;
      try (destruct (Hgen e He) as (child & labels & l & e0 & Hin & Hp & Hl & ->);
           exists labels, l, e0; split_and!; auto;
           by eapply epath_child; [reflexivity | reflexivity | exact Hin | exact Hp]).
    + destruct (first_non_nil (Err σ) (backgrounds g)) as [e'|] eqn:Ec; [|done].
      injection He as <-.
      destruct (Hgen e' eq_refl) as (child & labels & l & e0 & Hin & Hp & Hl & ->).
      exists (annotation :: labels), l, e0. split_and!; auto.
      by eapply epath_annotation.
    + exists [], err, e. split_and!; auto. constructor.
    + exists [], err, e. split_and!; auto. constructor.
Qed.

(** X2: a non-nil [Err()] is the error stored by an error leaf of the tree,
    wrapped by the annotations above that leaf; [errors.Is] recognises in it
    every target it recognises in the stored error, and the stored error
    itself exactly when it recognises that in itself. *)
Theorem Err_origin (σ : store) (b : Background) (e : error) :
  Err σ b = Some e →
  ∃ labels l e0,
    error_path b labels l ∧ errs σ !! l = Some e0
    ∧ e = annotate (next σ) labels e0
    ∧ errors_Is e e0 = errors_Is e0 e0
    ∧ ∀ target, errors_Is e0 target = Some true → errors_Is e target = Some true.
Proof.
  intros He. destruct (Err_path σ b e He) as (labels & l & e0 & Hp & Hl & ->).
  exists labels, l, e0. split_and!; try done.
  - apply errors_Is_annotate_self.
  - intros target. apply errors_Is_annotate.
Qed.

Lemma Err_origin_witness :
  ∃ labels l e0,
    error_path (annotationBackground (Group [errBackground no_children 2] None 3 4) "test")
               labels l
    ∧ errs sample_store !! l = Some e0
    ∧ Errorf_annot 10 "test" err2 = annotate 10 labels e0
    ∧ errors_Is (Errorf_annot 10 "test" err2) e0 = errors_Is e0 e0.
Proof.
  destruct (Err_origin sample_store
              (annotationBackground (Group [errBackground no_children 2] None 3 4) "test")
              (Errorf_annot 10 "test" err2) eq_refl)
    as (labels & l & e0 & Hp & Hl & He & Hself & _).
  exists labels, l, e0. by split_and!.
Defined.

Lemma Error_calls_app calls1 calls2 σ :
  Error_calls (calls1 ++ calls2) σ = Error_calls calls2 (Error_calls calls1 σ).
Proof. unfold Error_calls. apply foldl_app. Qed.

(** X3: whatever [Error] calls the jobs make, a tree whose [Err()] has
    returned an error keeps returning one: never nil again, though not
    always the same error. *)
Theorem Err_never_nil_again (σ : store) (calls : list (loc * option error))
    (b : Background) (e : error) :
  Err σ b = Some e →
  ∃ e', Err (Error_calls calls σ) b = Some e'.
Proof.
  revert e.
  induction b as [|children parent f IHc IHp|b g Hg IH] using Background_tree_ind;
    intros e He.
  - done.
  - simpl in He. simpl. destruct (Err σ parent) as [e'|] eqn:Ep.
    + destruct (IHp e' eq_refl) as [e'' ->]. eauto.
    + destruct (Err (Error_calls calls σ) parent); [eauto|].
      apply first_non_nil_Some in He as (child & Hin & Hchild).
      rewrite Forall_forall in IHc.
      destruct (IHc child Hin e Hchild) as [e'' He''].
      destruct (first_non_nil (Err (Error_calls calls σ)) (backgrounds children))
        as [x|] eqn:Ex; [eauto|].
      rewrite first_non_nil_None, Forall_forall in Ex.
      specialize (Ex child Hin). congruence.
  - rewrite Forall_forall in IH.
    assert (Hgen : ∀ e', first_non_nil (Err σ) (backgrounds g) = Some e' →
              ∃ e'', first_non_nil (Err (Error_calls calls σ)) (backgrounds g) = Some e'').
    { intros e' Hf. apply first_non_nil_Some in Hf as (child & Hin & Hchild).
      destruct (IH child Hin e' Hchild) as [e'' He''].
      destruct (first_non_nil (Err (Error_calls calls σ)) (backgrounds g))
        as [x|] eqn:Ex; [eauto|].
      rewrite first_non_nil_None, Forall_forall in Ex.
      specialize (Ex child Hin). congruence. }
    destruct b; simpl in Hg; simplify_eq; simpl in He; simpl;
      try (by eapply Hgen).
    + destruct (first_non_nil (Err σ) (backgrounds g)) as [e'|] eqn:Ec; [|done].
      destruct (Hgen e' eq_refl) as [e'' ->]. eauto.
    + exists e. by apply Error_calls_keeps.
    + exists e. by apply Error_calls_keeps.
Qed.

Lemma Err_never_nil_again_witness :
  Err sample_store
      (groupBackground (Group [errGroupBackground no_children 3;
                               errGroupBackground no_children 2] None 3 4))
  = Some err2
  ∧ Err (Error_calls [(3, Some err1)] sample_store)
        (groupBackground (Group [errGroupBackground no_children 3;
                                 errGroupBackground no_children 2] None 3 4))
    = Some err1
  ∧ ∃ e', Err (Error_calls [(3, Some err1)] sample_store)
              (groupBackground (Group [errGroupBackground no_children 3;
                                       errGroupBackground no_children 2] None 3 4))
          = Some e'.
Proof.
  split; [reflexivity|]. split; [reflexivity|].
  exact (Err_never_nil_again sample_store [(3, Some err1)]
           (groupBackground (Group [errGroupBackground no_children 3;
                                    errGroupBackground no_children 2] None 3 4))
           err2 eq_refl).
Defined.

(** ** Merging *)

Lemma is_closed_same_chans σ σ' c :
  closed_chans σ' = closed_chans σ → is_closed σ' c = is_closed σ c.
Proof. unfold is_closed. by intros ->. Qed.

Lemma merge_loop_frame done m bgs : ∀ i ss w ss' w',
  merge_loop done m i bgs ss w = Ok ss' w' →
  closed_chans (w_store w') = closed_chans (w_store w)
  ∧ errs (w_store w') = errs (w_store w)
  ∧ next (w_store w') = next (w_store w)
  ∧ w_pool w' = w_pool w ++ (close_stream done <$> unfinished_args (w_store w) bgs).
Proof.
  unfold unfinished_args.
  induction bgs as [|[s|] bgs IH]; intros i ss w ss' w' H; simpl in H.
  - unfold_M. simplify_eq. simpl. by rewrite app_nil_r.
  - unfold_M. destruct (is_closed (w_store w) (finishSig s)) eqn:Hc; simpl in H.
    + apply IH in H as (? & ? & ? & ->). split_and!; try done.
      rewrite filter_cons_False by (by rewrite Hc). done.
    + apply IH in H as (Hcl & ? & ? & ->). simpl in *. split_and!; try done.
      rewrite filter_cons_True by done. simpl. rewrite <- app_assoc. done.
  - by apply IH in H.
Qed.

(** X4: [merge] never panics; the group it returns keeps exactly the non-nil
    arguments, in their order, and building it closes no channel and
    touches no error. *)
Theorem merge_keeps_non_nil (bgs : list (option Background)) (w : world) :
  ∃ g w', merge bgs w = Ok g w'
          ∧ backgrounds g = omap id bgs
          ∧ closed_chans (w_store w') = closed_chans (w_store w)
          ∧ errs (w_store w') = errs (w_store w).
Proof.
  destruct bgs as [|b bgs].
  { exists (Group [] None closedchan closedchan), w. by split_and!. }
  remember (b :: bgs) as l eqn:El.
  assert (Hl : l ≠ []) by (by subst).
  rewrite (merge_nonempty l w Hl).
  unfold make_chan, make_map, get_store, modify_store, mbind, M_bind, mret, M_ret.
  cbn beta iota.
  match goal with
  | |- context [merge_loop ?d ?m ?i ?bgs ?ss ?w0] =>
      destruct (merge_loop_ok d m bgs i ss w0) as [w1 Hok];
      pose proof (merge_loop_frame d m bgs i ss w0 _ _ Hok) as (Hcl & Her & _ & _)
  end.
  rewrite Hok. eexists _, _. split; [reflexivity|]. by split_and!.
Qed.

(** X5: for a non-empty argument list, the [toClose] map of the merged group
    holds exactly the argument indices of the non-nil children that were
    unfinished at merge time, and [merge] starts one goroutine for each of
    them, in their order, that waits for the group's [done] signal and then
    calls the child's [close()]. *)
Theorem merge_tracks_argument_indices (bgs : list (option Background)) (w : world) :
  bgs ≠ [] →
  ∃ g m w',
    merge bgs w = Ok g w'
    ∧ toClose g = Some m
    ∧ (∀ k, k ∈ tracked (w_store w') m ↔
            ∃ s, bgs !! k = Some (Some s)
                 ∧ is_closed (w_store w) (finishSig s) = false)
    ∧ w_pool w' = w_pool w ++ (close_stream (done g) <$> unfinished_args (w_store w) bgs).
Proof.
  intros Hne. rewrite (merge_nonempty bgs w Hne).
  unfold make_chan, make_map, get_store, modify_store, mbind, M_bind, mret, M_ret.
  cbn beta iota.
  match goal with
  | |- context [merge_loop ?d ?m ?i ?bgs ?ss ?w0] =>
      destruct (merge_loop_ok d m bgs i ss w0) as [w1 Hok];
      pose proof (merge_loop_frame d m bgs i ss w0 _ _ Hok) as (_ & _ & _ & Hpool);
      pose proof (merge_loop_tracked d m bgs i ss w0 _ _ Hok) as [_ Htr]
  end.
  rewrite Hok. eexists _, _, _. split; [reflexivity|]. split; [reflexivity|].
  split; [|exact Hpool].
  intros k. rewrite Htr. simpl. split.
  - intros [Hk|(j & s & -> & Hj & Hs)].
    + unfold tracked in Hk. simpl in Hk. rewrite lookup_insert_eq in Hk.
      simpl in Hk. by apply not_elem_of_empty in Hk.
    + exists s. split; [exact Hj | exact Hs].
  - intros (s & Hj & Hs). right. exists k, s. split; [done|]. split; [exact Hj | exact Hs].
Qed.

Lemma merge_tracks_argument_indices_witness :
  ∃ g m w',
    merge [None; Some sample_child; Some sample_parent]
          (World (close_chan 16 init_store) []) = Ok g w'
    ∧ toClose g = Some m
    ∧ backgrounds g = [sample_child; sample_parent]
    ∧ (1 ∈ tracked (w_store w') m)
    ∧ (0 ∉ tracked (w_store w') m) ∧ (2 ∉ tracked (w_store w') m)
    ∧ w_pool w' = [close_stream (done g) sample_child].
Proof.
  destruct (merge_tracks_argument_indices
              [None; Some sample_child; Some sample_parent]
              (World (close_chan 16 init_store) []) ltac:(done))
    as (g & m & w' & Hm & Hto & Htr & Hpool).
  exists g, m, w'. split; [exact Hm|]. split; [exact Hto|].
  split.
  { destruct (merge_ok [None; Some sample_child; Some sample_parent]
                (World (close_chan 16 init_store) [])) as (g' & w'' & Hm' & Hbg).
    rewrite Hm in Hm'. by simplify_eq. }
  split.
  { apply Htr. exists sample_child. split; reflexivity. }
  split.
  { intros Hk. apply Htr in Hk as (s & [=] & _). }
  split.
  { intros Hk. apply Htr in Hk as (s & [= <-] & Hs). vm_compute in Hs. discriminate Hs. }
  exact Hpool.
Defined.

(** X6: merging nothing gives a group that is finished from the start: in
    every store its finished signal is closed, it reports no error, no value
    and no cause, [close()] returns at once without a step, and the shutdown
    protocol returns nil whichever branch of its select fires. *)
Theorem merge_nothing_is_finished (w : world) :
  ∃ g, merge [] w = Ok g w
       ∧ (∀ σ, is_closed σ (finishSig (groupBackground g)) = true
               ∧ Err σ (groupBackground g) = None
               ∧ cause σ (groupBackground g) = None)
       ∧ (∀ k, Value (groupBackground g) k = Returns None)
       ∧ (∀ a σ t o, exec a σ (close (groupBackground g)) t o →
                     t = [] ∧ ∃ σ', o = Returned σ' ∧ grows σ σ')
       ∧ (∀ ctx σ tg og r, shutdown ctx (groupBackground g) σ tg og r → r = None).
Proof.
  exists (Group [] None closedchan closedchan). split; [done|].
  split; [done|]. split; [done|]. split.
  - intros a σ t o H.
    exact (group_close_again a σ (Group [] None closedchan closedchan) t o eq_refl H).
  - intros ctx σ tg og r H. by destruct H.
Qed.

(** ** Allocation *)

Lemma wf_store_bump σ : wf_store σ → wf_store (bump σ).
Proof.
  intros [H0 Hc]. split; simpl; [lia|]. intros c Hin. specialize (Hc c Hin). lia.
Qed.

Lemma wf_store_next_open σ (c : chan) :
  wf_store σ → (next σ ≤ c)%nat → is_closed σ c = false.
Proof.
  intros [H0 Hc] Hle. unfold is_closed.
  apply orb_false_iff. split; apply bool_decide_eq_false.
  - unfold closedchan. lia.
  - intros Hin. specialize (Hc c Hin). lia.
Qed.

Lemma wf_store_same σ σ' :
  closed_chans σ' = closed_chans σ → (next σ ≤ next σ')%nat → wf_store σ → wf_store σ'.
Proof.
  intros Hcl Hn [H0 Hc]. split; [lia|]. rewrite Hcl. intros c Hin.
  specialize (Hc c Hin). lia.
Qed.

(** What [merge] does to a well-formed store. *)
Lemma merge_wf bgs w g w' :
  wf_store (w_store w) →
  merge bgs w = Ok g w' →
  wf_store (w_store w')
  ∧ closed_chans (w_store w') = closed_chans (w_store w)
  ∧ (next (w_store w) ≤ next (w_store w'))%nat
  ∧ (done g < next (w_store w'))%nat ∧ (finished g < next (w_store w'))%nat
  ∧ (bgs ≠ [] → (next (w_store w) ≤ done g)%nat ∧ (next (w_store w) ≤ finished g)%nat
                ∧ done g ≠ finished g).
Proof.
  intros Hwf H. destruct bgs as [|b bgs].
  { simpl in H. unfold_M. simplify_eq. simpl. destruct Hwf as [H0 ?].
    split_and!; try done; unfold closedchan; lia. }
  remember (b :: bgs) as l eqn:El.
  assert (Hl : l ≠ []) by (by subst).
  rewrite (merge_nonempty l w Hl) in H.
  unfold make_chan, make_map, get_store, modify_store, mbind, M_bind, mret, M_ret in H.
  cbn beta iota in H.
  match type of H with
  | context [merge_loop ?d ?m ?i ?bgs ?ss ?w0] =>
      destruct (merge_loop_ok d m bgs i ss w0) as [w1 Hok];
      pose proof (merge_loop_frame d m bgs i ss w0 _ _ Hok) as (Hcl & _ & Hn & _)
  end.
  rewrite Hok in H. simplify_eq. simpl in *.
  split_and!; try done; try lia;
    try (eapply wf_store_same; [exact Hcl | rewrite Hn; simpl; lia | done]);
    try (intros _; lia).
Qed.

(** X7: in a well-formed store, a new shutdown leaf starts with its end and
    done signals open and distinct from each other and from the signals of
    its group, so its cause is non-nil until its job calls [Done()]; the
    store stays well formed and no channel is closed by the construction. *)
Theorem withShutdown_fresh (children : list (option Background)) (w : world) :
  wf_store (w_store w) →
  ∃ g e d w',
    withShutdown children w = Ok (shutdownBackground g e d) w'
    ∧ is_closed (w_store w') e = false
    ∧ is_closed (w_store w') d = false
    ∧ e ≠ d ∧ e ≠ done g ∧ e ≠ finished g ∧ d ≠ done g ∧ d ≠ finished g
    ∧ wf_store (w_store w')
    ∧ closed_chans (w_store w') = closed_chans (w_store w)
    ∧ (∃ err, cause (w_store w') (shutdownBackground g e d) = Some err).
Proof.
  intros Hwf. unfold withShutdown.
  destruct (merge_ok children w) as (g & w1 & Hm & _).
  destruct (merge_wf _ _ _ _ Hwf Hm) as (Hwf1 & Hcl & Hn & Hd & Hf & _).
  unfold mbind, M_bind at 1. rewrite Hm. unfold_M.
  eexists g, _, _, _. split; [reflexivity|].
  pose proof (wf_store_bump _ (wf_store_bump _ Hwf1)) as Hwf2.
  assert (He : is_closed (bump (bump (w_store w1))) (S (next (w_store w1))) = false).
  { apply (wf_store_next_open (w_store w1)); [done | lia]. }
  assert (Hdn : is_closed (bump (bump (w_store w1))) (next (w_store w1)) = false).
  { apply (wf_store_next_open (w_store w1)); [done | lia]. }
  split_and!; try done; try lia.
  simpl. destruct (first_non_nil _ _); [eauto|].
  change (is_closed (bump (bump (w_store w1))) (next (w_store w1)))
    with (is_closed (w_store w1) (next (w_store w1))).
  rewrite (wf_store_next_open (w_store w1)) by (done || lia). eauto.
Qed.

Lemma withShutdown_fresh_witness :
  wf_store init_store
  ∧ ∃ g e d w',
      withShutdown [] init_world = Ok (shutdownBackground g e d) w'
      ∧ is_closed (w_store w') e = false
      ∧ is_closed (w_store w') d = false
      ∧ wf_store (w_store w').
Proof.
  assert (Hwf : wf_store init_store).
  { split; simpl; [lia|]. intros c Hc. by apply not_elem_of_empty in Hc. }
  split; [exact Hwf|].
  destruct (withShutdown_fresh [] init_world Hwf)
    as (g & e & d & w' & H & He & Hd & _ & _ & _ & _ & _ & Hwf' & _).
  exists g, e, d, w'. by split_and!.
Defined.

(** ** Watchers and the shutdown leaf *)

(** X8: the goroutine that [addToCloseStream] starts for a child calls the
    child's [close()] only in a store in which the group's [done] signal
    has been closed, and does nothing before. *)
Theorem close_stream_waits (d : chan) (c : Background) (σ : store)
    (t : list event) (o : outcome) :
  exec false σ (close_stream d c) t o →
  (t = [] ∧ ∃ σ', o = Blocked d σ' ∧ is_closed σ' d = false)
  ∨ (∃ σ1 σ2 sub oc rest,
       t = ERecv d σ1 :: ECall c σ2 sub :: rest
       ∧ grows σ σ1 ∧ grows σ1 σ2
       ∧ is_closed σ1 d = true ∧ is_closed σ2 d = true
       ∧ exec false σ2 (close c) sub oc
       ∧ rest = []).
Proof.
  intros H. unfold close_stream in H.
  apply exec_inv_recv in H as (σ1 & Hg1 & _ & H).
  destruct H as [(Hopen & -> & ->) | (Hd & t1 & -> & H)]; [left; eauto|].
  right.
  apply exec_inv_call in H as (σ2 & Hg2 & _ & sub & oc & Hsub & H).
  exists σ1, σ2, sub, oc.
  destruct H as [(_ & -> & ->) | (σ3 & t2 & _ & -> & H)].
  - exists []. split_and!; eauto using is_closed_grows.
  - apply exec_inv_nil in H as (σ4 & _ & _ & -> & ->).
    exists []. split_and!; eauto using is_closed_grows.
Qed.

Lemma close_stream_waits_witness :
  ∃ t o,
    run 40 (close_chan 13 sample_done_store) (close_stream 13 sample_child) = Some (t, o)
    ∧ closes t = [11]
    ∧ ∃ σ1 σ2 sub, t = [ERecv 13 σ1; ECall sample_child σ2 sub].
Proof.
  destruct (run 40 (close_chan 13 sample_done_store) (close_stream 13 sample_child))
    as [[t o]|] eqn:E; [|vm_compute in E; discriminate E].
  exists t, o. split; [done|]. split.
  { vm_compute in E. injection E as <- <-. reflexivity. }
  destruct (close_stream_waits _ _ _ _ _ (run_sound 40 false _ _ _ _ E))
    as [(Ht & σ' & Ho & _) | (σ1 & σ2 & sub & oc & rest & Ht & _ & _ & _ & _ & _ & ->)].
  - exfalso. vm_compute in E. subst t. discriminate E.
  - eauto.
Defined.

(** X9: a call of [close()] on a shutdown leaf starts [group.close] on its
    children as a goroutine, waits for the group's finished signal, and
    only then closes its end signal, unless that is closed already; it
    returns without waiting for the job's [Done()]. *)
Theorem shutdownBackground_close_order (g : group) (e d : chan) (σ : store)
    (t : list event) (o : outcome) :
  exec false σ (close (shutdownBackground g e d)) t o →
  ∃ σg tg og,
    grows σ σg ∧ exec false σg [ICallGroup g] tg og ∧
    ((t = [EGo [ICallGroup g] σg tg og]
      ∧ ∃ σ1, o = Blocked (finished g) σ1 ∧ is_closed σ1 (finished g) = false)
     ∨ ∃ σ1 σ2,
         grows σ σ1 ∧ grows σ1 σ2
         ∧ is_closed σ1 (finished g) = true ∧ is_closed σ2 (finished g) = true
         ∧ ((t = [EGo [ICallGroup g] σg tg og; ERecv (finished g) σ1]
             ∧ is_closed σ2 e = true ∧ o = Returned σ2)
            ∨ (t = [EGo [ICallGroup g] σg tg og; ERecv (finished g) σ1; EClose e σ2]
               ∧ is_closed σ2 e = false
               ∧ ∃ σ3, o = Finished σ3 ∧ is_closed σ3 e = true))).
Proof.
  intros H. simpl in H.
  apply exec_inv_go in H as (σ0 & Hg0 & _ & σg & tg & og & t1 & Hgg & Hgo & -> & H).
  exists σg, tg, og. split; [by eapply grows_trans|]. split; [done|].
  apply exec_inv_recv in H as (σ1 & Hg1 & _ & H).
  destruct H as [(Hopen & -> & ->) | (Hfin & t2 & -> & H)]; [left; eauto|].
  right.
  apply exec_inv_locked in H as (σ2 & Hg2 & _ & tl & ol & Hl & H).
  exists σ1, σ2.
  split; [by eapply grows_trans|]. split; [done|]. split; [done|].
  split; [by eapply is_closed_grows|].
  apply exec_inv_select in Hl as (σ2' & _ & Hσ & Hl).
  rewrite (Hσ eq_refl) in *. clear Hσ σ2'.
  destruct (is_closed σ2 e) eqn:He; simpl in Hl.
  - apply exec_inv_return in Hl as (σ2' & _ & Hσ & -> & ->).
    rewrite (Hσ eq_refl) in *.
    destruct H as [(σ3 & t3 & [=] & _) | (_ & -> & ->)].
    left. done.
  - apply exec_inv_close in Hl as (σ2' & _ & Hσ & Hl).
    rewrite (Hσ eq_refl) in *. clear Hσ σ2'.
    destruct Hl as [(He' & _) | (_ & t' & -> & Hl)]; [congruence|].
    apply exec_inv_nil in Hl as (σ2' & _ & Hσ & -> & ->).
    rewrite (Hσ eq_refl) in *.
    destruct H as [(σ3 & t3 & [= <-] & -> & H) | (Hne & _)];
      [|by destruct (Hne (close_chan e σ2))].
    apply exec_inv_nil in H as (σ4 & Hg4 & _ & -> & ->).
    right. split; [done|]. split; [done|]. exists σ4. split; [done|].
    eapply is_closed_grows; [done | apply is_closed_close_chan].
Qed.

Lemma shutdownBackground_close_order_witness :
  ∃ t o,
    run 40 init_store (close sample_child) = Some (t, o)
    ∧ closes t = [11]
    ∧ ∃ σg tg og, grows init_store σg ∧ exec false σg [ICallGroup no_children] tg og.
Proof.
  destruct (run 40 init_store (close sample_child)) as [[t o]|] eqn:E;
    [|vm_compute in E; discriminate E].
  exists t, o. split; [done|]. split.
  { vm_compute in E. injection E as <- <-. reflexivity. }
  destruct (shutdownBackground_close_order _ _ _ _ _ _ (run_sound 40 false _ _ _ _ E))
    as (σg & tg & og & Hg & Hgo & _).
  eauto.
Defined.

(** ** Causes and the [Shutdown] method *)

Lemma all_done_grows (σ σ' : store) (b : Background) :
  grows σ σ' → all_done σ b = true → all_done σ' b = true.
Proof.
  intros Hg.
  assert (Hl : ∀ l, Forall (λ b, all_done σ b = true → all_done σ' b = true) l →
                 forallb (all_done σ) l = true → forallb (all_done σ') l = true).
  { intros l Hall. induction Hall as [|x l Hx _ IH]; simpl; [done|].
    rewrite !andb_true_iff. intros [? ?]. auto. }
  induction b as [|children parent f IHc IHp|b g Hemb IH] using Background_tree_ind.
  - done.
  - simpl. rewrite !andb_true_iff. intros [? ?]. auto.
  - destruct b; simpl in Hemb; simplify_eq; simpl; try (by apply Hl).
    rewrite !andb_true_iff. intros [? ?]. split; [by apply Hl|].
    by eapply is_closed_grows.
Qed.

(** X10: closing more channels never brings a cause back: once the cause walk
    of a tree is nil it is nil in every later store. *)
Theorem cause_stays_nil (σ σ' : store) (b : Background) :
  grows σ σ' → cause σ b = None → cause σ' b = None.
Proof.
  intros Hg Hc. apply cause_all_done. apply (all_done_grows σ); [done|].
  by apply cause_all_done.
Qed.

Lemma cause_stays_nil_witness :
  grows sample_done_store (close_chan 17 sample_done_store)
  ∧ cause sample_done_store sample_depend = None
  ∧ cause (close_chan 17 sample_done_store) sample_depend = None.
Proof.
  split; [apply grows_close_chan|]. split; [reflexivity|].
  apply (cause_stays_nil sample_done_store); [apply grows_close_chan | reflexivity].
Defined.

Lemma shutdown_outcome (ctx : chan) (c : Background) (σ : store)
    (tg : list event) (og : outcome) (r : option error) :
  shutdown ctx c σ tg og r →
  (all_done σ c = true → r = None)
  ∧ (∀ e, r = Some e →
       (∃ h labels, e = annotate h labels ErrTimeout)
       ∧ ∃ σ1 σ2, grows σ σ1 ∧ is_closed σ1 ctx = true ∧ grows σ1 σ2
                  ∧ all_done σ2 c = false).
Proof.
  intros H. destruct H as [σg tg og σ1 Hg Hgo H1 Hfin
                          | σg tg og σ1 σ2 Hg Hgo H1 Hctx H2]; [done|].
  split.
  - intros Hall. apply cause_all_done. apply (all_done_grows σ); [|done].
    by eapply grows_trans.
  - intros e He. split.
    + destruct (cause_path _ _ _ He) as (labels & _ & ->). eauto.
    + exists σ1, σ2. split_and!; try done.
      destruct (all_done σ2 c) eqn:Hall; [|done].
      apply cause_all_done in Hall. congruence.
Qed.



(** ** [group.close] step by step *)

Lemma tracked_delete_key m i σ : tracked (delete_key m i σ) m = tracked σ m ∖ {[i]}.
Proof. unfold tracked at 1, delete_key. simpl. by rewrite lookup_insert_eq. Qed.

(** The loop of [group.close] when nothing else runs. *)
Lemma range_alone g m rest :
  toClose g = Some m →
  ∀ n σ t o,
    size (tracked σ m) = n →
    exec true σ (IRange g :: rest) t o →
    (∃ σ' t1 t2,
        t = t1 ++ t2 ∧ closes t1 = [] ∧ closed_chans σ' = closed_chans σ
        ∧ tracked σ' m = ∅
        ∧ (∀ i, i ∈ tracked σ m →
                ∃ b, backgrounds g !! i = Some b ∧ is_closed σ (finishSig b) = true)
        ∧ exec true σ' rest t2 o)
    ∨ (closes t = [] ∧
       ∃ i, i ∈ tracked σ m ∧
         ((backgrounds g !! i = None ∧ o = Panicked "index out of range")
          ∨ ∃ b σ', backgrounds g !! i = Some b ∧ is_closed σ (finishSig b) = false
                    ∧ o = Blocked (finishSig b) σ')).
Proof.
  intros Hm n. induction n as [n IH] using lt_wf_ind. intros σ t o Hn H.
  apply exec_inv_range in H as (σ0 & _ & Hσ & H).
  rewrite (Hσ eq_refl) in *. clear Hσ σ0.
  destruct H as [(Hnone & _) | (m' & Hm' & H)]; [congruence|].
  assert (m' = m) by congruence. subst m'.
  destruct H as [(Hemp & H) | (i & Hi & H)].
  { left. exists σ, [], t. split_and!; try done.
    intros i Hi. rewrite Hemp in Hi. by apply not_elem_of_empty in Hi. }
  destruct H as [(Hnone & -> & ->) | (b & Hb & H)].
  { right. split; [done|]. exists i. split; [done|]. by left. }
  apply exec_inv_recv in H as (σ1 & _ & Hσ & H).
  rewrite (Hσ eq_refl) in *. clear Hσ σ1.
  destruct H as [(Hopen & -> & ->) | (Hcl & t' & -> & H)].
  { right. split; [done|]. exists i. split; [done|]. right. eauto. }
  apply exec_inv_locked in H as (σ2 & _ & Hσ & tl & ol & Hl & H).
  rewrite (Hσ eq_refl) in *. clear Hσ σ2.
  apply exec_inv_delete in Hl as (σ3 & _ & Hσ & tl' & -> & Hl).
  rewrite (Hσ eq_refl) in *. clear Hσ σ3.
  apply exec_inv_nil in Hl as (σ4 & _ & Hσ & -> & ->).
  rewrite (Hσ eq_refl) in *. clear Hσ σ4.
  destruct H as [(σ5 & t2 & [= <-] & -> & H) | (Hne & _)];
    [|by destruct (Hne (delete_key m i σ))].
  assert (Hsize : size (tracked (delete_key m i σ) m) < n).
  { rewrite tracked_delete_key.
    assert (Hsub : ({[i]} : gset nat) ⊆ tracked σ m) by (by apply singleton_subseteq_l).
    pose proof (size_difference (tracked σ m) {[i]} Hsub) as Hd.
    rewrite size_singleton in Hd.
    assert (size (tracked σ m) ≠ 0).
    { intros Hz. apply size_empty_inv in Hz. apply Hz in Hi.
      by apply not_elem_of_empty in Hi. }
    lia. }
  destruct (IH _ Hsize (delete_key m i σ) t2 o eq_refl H)
    as [(σ' & t1 & t3 & -> & Hcl1 & Hsame & Hemp & Hall & Hrest)
       | (Hcl2 & j & Hj & Hcase)].
  - left. exists σ', (ERecv (finishSig b) σ :: EDelete m i σ :: t1), t3.
    split_and!; try done.
    intros j Hj. destruct (decide (j = i)) as [->|Hne]; [eauto|].
    apply Hall. rewrite tracked_delete_key. apply elem_of_difference.
    split; [done|]. by rewrite elem_of_singleton.
  - right. split; [done|]. exists j.
    rewrite tracked_delete_key in Hj. apply elem_of_difference in Hj as [Hj _].
    split; [done|]. exact Hcase.
Qed.

(** [group.close()] on an open [done] signal when nothing else runs. *)
Lemma group_close_atomic (g : group) (σ : store) (t : list event) (o : outcome) :
  is_closed σ (done g) = false →
  exec true σ (group_close g) t o →
  match o with
  | Finished σ' =>
      (∀ i, i ∈ owed σ g →
            ∃ b, backgrounds g !! i = Some b
                 ∧ is_closed (close_chan (done g) σ) (finishSig b) = true)
      ∧ closes t = [done g; finished g]
      ∧ closed_chans σ' = {[finished g]} ∪ ({[done g]} ∪ closed_chans σ)
      ∧ owed σ' g = ∅
  | Blocked c σ' =>
      closes t = [done g]
      ∧ ∃ i b, i ∈ owed σ g ∧ backgrounds g !! i = Some b ∧ c = finishSig b
               ∧ is_closed (close_chan (done g) σ) c = false
  | Panicked msg =>
      closes t = [done g]
      ∧ ((msg = "index out of range" ∧ ∃ i, i ∈ owed σ g ∧ backgrounds g !! i = None)
         ∨ (msg = "close of closed channel"
            ∧ is_closed (close_chan (done g) σ) (finished g) = true))
  | Returned _ => False
  end.
Proof.
  intros Hd H. unfold group_close in H.
  apply exec_inv_locked in H as (σ0 & _ & Hσ & tl & ol & Hl & H).
  rewrite (Hσ eq_refl) in *. clear Hσ σ0.
  apply exec_inv_select in Hl as (σ0 & _ & Hσ & Hl).
  rewrite (Hσ eq_refl) in *. clear Hσ σ0.
  rewrite Hd in Hl. simpl in Hl.
  apply exec_inv_close in Hl as (σ0 & _ & Hσ & Hl).
  rewrite (Hσ eq_refl) in *. clear Hσ σ0.
  destruct Hl as [(Hd' & _) | (_ & t' & -> & Hl)]; [congruence|].
  apply exec_inv_nil in Hl as (σ0 & _ & Hσ & -> & ->).
  rewrite (Hσ eq_refl) in *. clear Hσ σ0.
  destruct H as [(σ1 & t2 & [= <-] & -> & H) | (Hne & _)];
    [|by destruct (Hne (close_chan (done g) σ))].
  set (σ1 := close_chan (done g) σ) in *.
  assert (Hlast : ∀ σ2 t1 t3,
            closes t1 = [] → closed_chans σ2 = closed_chans σ1 → owed σ2 g = ∅ →
            (∀ i, i ∈ owed σ g →
                  ∃ b, backgrounds g !! i = Some b ∧ is_closed σ1 (finishSig b) = true) →
            exec true σ2 [IClose (finished g)] t3 o →
            match o with
            | Finished σ' =>
                (∀ i, i ∈ owed σ g →
                      ∃ b, backgrounds g !! i = Some b ∧ is_closed σ1 (finishSig b) = true)
                ∧ closes ([EClose (done g) σ] ++ t1 ++ t3) = [done g; finished g]
                ∧ closed_chans σ' = {[finished g]} ∪ ({[done g]} ∪ closed_chans σ)
                ∧ owed σ' g = ∅
            | Blocked c σ' =>
                closes ([EClose (done g) σ] ++ t1 ++ t3) = [done g]
                ∧ ∃ i b, i ∈ owed σ g ∧ backgrounds g !! i = Some b ∧ c = finishSig b
                         ∧ is_closed σ1 c = false
            | Panicked msg =>
                closes ([EClose (done g) σ] ++ t1 ++ t3) = [done g]
                ∧ ((msg = "index out of range"
                    ∧ ∃ i, i ∈ owed σ g ∧ backgrounds g !! i = None)
                   ∨ (msg = "close of closed channel"
                      ∧ is_closed σ1 (finished g) = true))
            | Returned _ => False
            end).
  { intros σ2 t1 t3 Ht1 Hsame Howed Hall H3.
    apply exec_inv_close in H3 as (σ3 & _ & Hσ & H3).
    rewrite (Hσ eq_refl) in *. clear Hσ σ3.
    destruct H3 as [(Hf & -> & ->) | (Hf & t4 & -> & H3)].
    - rewrite !closes_app, Ht1. split; [done|]. right. split; [done|].
      by rewrite <- (is_closed_same_chans σ1 σ2).
    - apply exec_inv_nil in H3 as (σ3 & _ & Hσ & -> & ->).
      rewrite (Hσ eq_refl) in *. clear Hσ σ3.
      rewrite !closes_app, Ht1. split_and!; try done.
      simpl. by rewrite Hsame. }
  unfold owed in *. destruct (toClose g) as [m|] eqn:Hm.
  - destruct (range_alone g m [IClose (finished g)] Hm _ σ1 t2 o eq_refl H)
      as [(σ2 & t1 & t3 & -> & Ht1 & Hsame & Hemp & Hall & Hrest)
         | (Ht2 & i & Hi & Hcase)].
    + by apply (Hlast σ2 t1 t3).
    + destruct Hcase as [(Hnone & ->) | (b & σ' & Hb & Hopen & ->)].
      * split; [by rewrite closes_app, Ht2|]. left. split; [done|]. eauto.
      * split; [by rewrite closes_app, Ht2|]. exists i, b. by split_and!.
  - apply exec_inv_range in H as (σ0 & _ & Hσ & H).
    rewrite (Hσ eq_refl) in *. clear Hσ σ0.
    destruct H as [(_ & H) | (m & Hm' & _)]; [|congruence].
    apply (Hlast σ1 [] t2); try done.
Qed.

(** The loop of [group.close] always has a run when nothing else runs. *)
Lemma range_runs g rest :
  (∀ σ, ∃ t o, exec true σ rest t o) →
  ∀ (n : nat) σ, size (owed σ g) = n → ∃ t o, exec true σ (IRange g :: rest) t o.
Proof.
  intros Hrest n. induction n as [n IH] using lt_wf_ind. intros σ Hn.
  unfold owed in *. destruct (toClose g) as [m|] eqn:Hm.
  2:{ destruct (Hrest σ) as (t & o & H). exists t, o. by apply exec_range_nil. }
  destruct (set_choose_or_empty (tracked σ m)) as [[i Hi] | Hemp].
  2:{ destruct (Hrest σ) as (t & o & H). exists t, o.
      eapply exec_range_done; [done | by apply leibniz_equiv | done]. }
  destruct (backgrounds g !! i) as [b|] eqn:Hb.
  2:{ eexists _, _. by eapply exec_range_index. }
  destruct (is_closed σ (finishSig b)) eqn:Hfin.
  2:{ eexists _, _. eapply exec_range_iter; [done..|]. by apply exec_recv_block. }
  assert (Hsize : size (tracked (delete_key m i σ) m) < n).
  { rewrite tracked_delete_key.
    assert (Hsub : ({[i]} : gset nat) ⊆ tracked σ m) by (by apply singleton_subseteq_l).
    pose proof (size_difference (tracked σ m) {[i]} Hsub) as Hd.
    rewrite size_singleton in Hd.
    assert (size (tracked σ m) ≠ 0).
    { intros Hz. apply size_empty_inv in Hz. apply Hz in Hi.
      by apply not_elem_of_empty in Hi. }
    lia. }
  destruct (IH _ Hsize (delete_key m i σ) eq_refl) as (t & o & H).
  eexists _, o. eapply exec_range_iter; [done..|].
  apply exec_recv; [done|].
  eapply (exec_locked true σ [IDelete m i] _ [EDelete m i σ]); [|exact H].
  apply exec_delete. apply exec_nil.
Qed.

(** X12: a call of [group.close()] that runs alone, on a group whose [done]
    signal is open, always has a run, and every run is as follows.  It
    closes [done]; it ends by closing [finished], and closes nothing else,
    only when every index owed is the index of a child that has finished,
    and then no index is owed any more; it blocks only on an owed child
    that has not finished, and panics only on an owed index that is not the
    index of a child or on a [finished] signal that is closed already; it
    never returns at the guard. *)
Theorem group_close_alone (g : group) (σ : store) :
  is_closed σ (done g) = false →
  (∃ t o, exec true σ (group_close g) t o)
  ∧ ∀ t o,
      exec true σ (group_close g) t o →
      match o with
      | Finished σ' =>
          (∀ i, i ∈ owed σ g →
                ∃ b, backgrounds g !! i = Some b
                     ∧ is_closed (close_chan (done g) σ) (finishSig b) = true)
          ∧ closes t = [done g; finished g]
          ∧ closed_chans σ' = {[finished g]} ∪ ({[done g]} ∪ closed_chans σ)
          ∧ owed σ' g = ∅
      | Blocked c σ' =>
          closes t = [done g]
          ∧ ∃ i b, i ∈ owed σ g ∧ backgrounds g !! i = Some b ∧ c = finishSig b
                   ∧ is_closed (close_chan (done g) σ) c = false
      | Panicked msg =>
          closes t = [done g]
          ∧ ((msg = "index out of range" ∧ ∃ i, i ∈ owed σ g ∧ backgrounds g !! i = None)
             ∨ (msg = "close of closed channel"
                ∧ is_closed (close_chan (done g) σ) (finished g) = true))
      | Returned _ => False
      end.
Proof.
  intros Hd. split; [|intros t o H; by apply group_close_atomic].
  assert (Hlast : ∀ σ1, ∃ t o, exec true σ1 [IClose (finished g)] t o).
  { intros σ1. destruct (is_closed σ1 (finished g)) eqn:Hf.
    - eexists _, _. by apply exec_close_panic.
    - eexists _, _. apply exec_close; [done|]. apply exec_nil. }
  destruct (range_runs g [IClose (finished g)] Hlast _ (close_chan (done g) σ) eq_refl)
    as (t & o & H).
  eexists _, o. unfold group_close.
  eapply (exec_locked true σ _ _ [EClose (done g) σ]); [|exact H].
  apply exec_select_default; [done|]. simpl.
  apply exec_close; [done|]. apply exec_nil.
Qed.

Lemma group_close_alone_witness :
  ∃ t σ',
    run 40 sample_done_store (group_close sample_children) = Some (t, Finished σ')
    ∧ closes t = [13; 14]
    ∧ owed sample_done_store sample_children = {[0]}
    ∧ owed σ' sample_children = ∅.
Proof.
  destruct (run 40 sample_done_store (group_close sample_children)) as [[t o]|] eqn:E;
    [|vm_compute in E; discriminate E].
  pose proof (proj2 (group_close_alone sample_children sample_done_store eq_refl) t o
                (run_sound 40 true _ _ _ _ E)) as H.
  destruct o as [σ'| | |]; try (vm_compute in E; discriminate E).
  destruct H as (_ & Hcl & _ & Howed).
  exists t, σ'. split; [done|]. split; [exact Hcl|]. split; [|exact Howed].
  vm_compute. reflexivity.
Defined.




(** ** Chains of dependencies *)



Lemma withDependency_inv b cs w d w' :
  withDependency b cs w = Ok d w' →
  ∃ g f, backgrounds g = omap id cs ∧ d = dependBackground g b f.
Proof.
  unfold withDependency.
  destruct (merge_ok cs w) as (g & w1 & Hm & Hbg).
  unfold mbind, M_bind at 1. rewrite Hm. unfold_M. intros [= <- <-]. eauto.
Qed.

Lemma withDependency_ok b cs w : ∃ d w', withDependency b cs w = Ok d w'.
Proof.
  unfold withDependency.
  destruct (merge_ok cs w) as (g & w1 & Hm & Hbg).
  unfold mbind, M_bind at 1. rewrite Hm. unfold_M. eauto.
Qed.

(** X14: what [b.DependsOn(cs...)] answers.  [Value] and [Err] ask [b]
    first and then the non-nil children in argument order; [cause] asks the
    children first and [b] last.  In each case the answer is the first
    non-nil one, nil when there is none; a panic of [Value] in one of them
    is the first answer that is not nil. *)
Theorem DependsOn_queries (b : Background) (cs : list (option Background))
    (w w' : world) (d : Background) :
  DependsOn b cs w = Ok d w' →
  (∀ k, Value d k = match Value b k with
                    | Returns None => first_value (λ c, Value c k) (omap id cs)
                    | r => r
                    end
        ∧ leftmost_value ((λ c, Value c k) <$> omap id cs)
            (first_value (λ c, Value c k) (omap id cs)))
  ∧ (∀ σ, Err σ d = match Err σ b with
                    | Some e => Some e
                    | None => first_non_nil (Err σ) (omap id cs)
                    end
          ∧ leftmost_non_nil (Err σ <$> omap id cs) (first_non_nil (Err σ) (omap id cs)))
  ∧ (∀ σ, cause σ d = match first_non_nil (cause σ) (omap id cs) with
                      | Some e => Some e
                      | None => cause σ b
                      end
          ∧ leftmost_non_nil (cause σ <$> omap id cs)
              (first_non_nil (cause σ) (omap id cs))).
Proof.
  unfold DependsOn. intros H.
  apply withDependency_inv in H as (g & f & Hbg & ->).
  split_and!.
  - intros k. cbn [Value]. rewrite Hbg. split; [done|]. apply first_value_leftmost.
  - intros σ. cbn [Err]. rewrite Hbg. split; [done|]. apply first_non_nil_leftmost.
  - intros σ. cbn [cause]. rewrite Hbg. split; [done|]. apply first_non_nil_leftmost.
Qed.

Lemma DependsOn_queries_witness :
  ∃ d w',
    DependsOn (valueBackground no_children test_key test_value1)
      [None; Some (valueBackground no_children test_key test_value2)] init_world
      = Ok d w'
    ∧ Value d test_key = Returns test_value1
    ∧ cause init_store d = None.
Proof.
  destruct (withDependency_ok (valueBackground no_children test_key test_value1)
              [None; Some (valueBackground no_children test_key test_value2)] init_world)
    as (d & w' & E).
  destruct (DependsOn_queries _ _ _ _ _ E) as (Hv & _ & Hc).
  exists d, w'. split; [exact E|]. split.
  - by rewrite (proj1 (Hv test_key)).
  - by rewrite (proj1 (Hc init_store)).
Defined.



(** ** From the constructors to [close()] *)

Lemma is_closed_close_chan_inv c c' σ :
  is_closed (close_chan c σ) c' = true → c' = c ∨ is_closed σ c' = true.
Proof.
  unfold is_closed, close_chan. simpl.
  rewrite !orb_true_iff, !bool_decide_eq_true, elem_of_union, elem_of_singleton.
  tauto.
Qed.

(** What [merge] returns for a non-empty argument list. *)
Lemma merge_inv bgs w g w' :
  bgs ≠ [] →
  merge bgs w = Ok g w' →
  ∃ m, toClose g = Some m
       ∧ backgrounds g = omap id bgs
       ∧ errs (w_store w') = errs (w_store w)
       ∧ ∀ k, k ∈ tracked (w_store w') m ↔
              ∃ s, bgs !! k = Some (Some s)
                   ∧ is_closed (w_store w) (finishSig s) = false.
Proof.
  intros Hne H. rewrite (merge_nonempty bgs w Hne) in H.
  unfold make_chan, make_map, get_store, modify_store, mbind, M_bind, mret, M_ret in H.
  cbn beta iota in H.
  match type of H with
  | context [merge_loop ?d ?m ?i ?bgs ?ss ?w0] =>
      destruct (merge_loop_ok d m bgs i ss w0) as [w1 Hok];
      pose proof (merge_loop_frame d m bgs i ss w0 _ _ Hok) as (_ & Herr & _ & _);
      pose proof (merge_loop_tracked d m bgs i ss w0 _ _ Hok) as [_ Htr]
  end.
  rewrite Hok in H. simplify_eq. eexists. split; [reflexivity|].
  split; [done|]. split; [done|].
  intros k. rewrite Htr. simpl. split.
  - intros [Hk|(j & s & -> & Hj & Hs)].
    + unfold tracked in Hk. simpl in Hk. rewrite lookup_insert_eq in Hk.
      simpl in Hk. by apply not_elem_of_empty in Hk.
    + exists s. split; [exact Hj | exact Hs].
  - intros (s & Hj & Hs). right. exists k, s. split; [done|]. split; [exact Hj | exact Hs].
Qed.

(** X16: a group merged in a well-formed store from children none of which is
    nil, and then closed with nothing else running: the call never panics
    and never returns at the guard; it closes [done], and it closes
    [finished] and ends exactly when every child has finished, leaving no
    index owed; otherwise it blocks on a child that was unfinished when the
    group was merged. *)
Theorem merge_then_close_alone (ss : list Background) (w w' : world) (g : group)
    (t : list event) (o : outcome) :
  wf_store (w_store w) →
  ss ≠ [] →
  merge (Some <$> ss) w = Ok g w' →
  exec true (w_store w') (group_close g) t o →
  match o with
  | Finished σ' =>
      closes t = [done g; finished g]
      ∧ (∀ s, s ∈ ss → is_closed σ' (finishSig s) = true)
      ∧ owed σ' g = ∅
  | Blocked c σ' =>
      closes t = [done g]
      ∧ ∃ s, s ∈ ss ∧ c = finishSig s ∧ is_closed (w_store w) c = false
  | Returned _ | Panicked _ => False
  end.
Proof.
  intros Hwf Hne Hm H.
  assert (Hne' : Some <$> ss ≠ []) by (by destruct ss).
  destruct (merge_wf _ _ _ _ Hwf Hm) as (Hwf' & Hcl & Hn & _ & _ & Hfresh).
  destruct (Hfresh Hne') as (Hd & Hf & Hdf).
  destruct (merge_inv _ _ _ _ Hne' Hm) as (m & Hto & Hbg & _ & Htr).
  assert (Hss : omap id (Some <$> ss) = ss).
  { clear. induction ss; simpl; [done | by f_equal]. }
  rewrite Hss in Hbg.
  assert (Hopen : ∀ c : chan, (next (w_store w) ≤ c)%nat → is_closed (w_store w') c = false).
  { intros c Hc. rewrite (is_closed_same_chans _ _ _ Hcl).
    by apply wf_store_next_open. }
  assert (Hkept : ∀ c, is_closed (w_store w) c = true →
                       is_closed (close_chan (done g) (w_store w')) c = true).
  { intros c Hc. eapply is_closed_grows; [apply grows_close_chan|].
    by rewrite (is_closed_same_chans _ _ _ Hcl). }
  pose proof (group_close_atomic g (w_store w') t o (Hopen _ Hd) H) as Hres.
  unfold owed in *. rewrite Hto in *.
  destruct o as [σ'|σ'|c σ'|msg]; [| done | |].
  - destruct Hres as (Hall & Hcloses & Hchans & Howed).
    split; [done|]. split; [|done].
    assert (Hafter : ∀ c, is_closed (close_chan (done g) (w_store w')) c = true →
                          is_closed σ' c = true).
    { intros c. unfold is_closed, close_chan. simpl. rewrite Hchans.
      rewrite !orb_true_iff, !bool_decide_eq_true.
      rewrite !elem_of_union, !elem_of_singleton. tauto. }
    intros s Hs. apply Hafter.
    destruct (is_closed (w_store w) (finishSig s)) eqn:Hfin; [by apply Hkept|].
    apply list_elem_of_lookup in Hs as [k Hk].
    assert (Hin : k ∈ tracked (w_store w') m).
    { apply Htr. exists s. split; [|done]. by rewrite list_lookup_fmap, Hk. }
    destruct (Hall k Hin) as (b & Hb & Hbfin).
    rewrite Hbg, Hk in Hb. by simplify_eq.
  - destruct Hres as (Hcloses & i & b & Hi & Hb & -> & Hopenb).
    split; [done|]. exists b. split_and!; [|done|].
    + rewrite Hbg in Hb. by eapply list_elem_of_lookup_2.
    + destruct (is_closed (w_store w) (finishSig b)) eqn:Hfin; [|done].
      by rewrite (Hkept _ Hfin) in Hopenb.
  - destruct Hres as (_ & [(_ & i & Hi & Hnone) | (_ & Hfin)]).
    + apply Htr in Hi as (s & Hs & _).
      rewrite list_lookup_fmap in Hs. rewrite Hbg in Hnone.
      rewrite Hnone in Hs. done.
    + apply is_closed_close_chan_inv in Hfin as [Heq | Hfin]; [congruence|].
      by rewrite (Hopen _ Hf) in Hfin.
Qed.

Lemma merge_then_close_alone_witness :
  ∃ g w' t c σ',
    merge [Some sample_child; Some sample_parent] (World (Store {[16]} ∅ ∅ 30) [])
      = Ok g w'
    ∧ run 40 (w_store w') (group_close g) = Some (t, Blocked c σ')
    ∧ closes t = [done g]
    ∧ c = 12.
Proof.
  destruct (merge_ok [Some sample_child; Some sample_parent]
              (World (Store {[16]} ∅ ∅ 30) [])) as (g & w' & Hm & _).
  destruct (run 40 (w_store w') (group_close g)) as [[t o]|] eqn:E.
  2:{ exfalso. vm_compute in Hm. injection Hm as <- <-. vm_compute in E. discriminate E. }
  assert (Ho : ∃ σ', o = Blocked 12 σ').
  { vm_compute in Hm. injection Hm as <- <-. vm_compute in E. injection E as <- <-.
    eauto. }
  destruct Ho as [σ' ->].
  exists g, w', t, 12, σ'. split; [exact Hm|]. split; [exact E|]. split; [|done].
  assert (Hwf : wf_store (w_store (World (Store {[16]} ∅ ∅ 30) []))).
  { split; simpl; [lia|]. intros c Hc. apply elem_of_singleton in Hc. subst c. lia. }
  exact (proj1 (merge_then_close_alone [sample_child; sample_parent] _ _ _ _ _
                  Hwf ltac:(done) Hm (run_sound 40 true _ _ _ _ E))).
Defined.

(** X17: the life of a shutdown leaf without children, built in a well-formed
    store, when nothing else runs: [close()] closes the end signal and
    nothing else and returns, and the leaf is still unfinished, with cause
    [ErrTimeout]; the job's [Done()] then closes the done signal, and from
    then on the leaf is finished, its cause is nil and [Shutdown] returns
    nil. *)
Theorem shutdown_leaf_lifecycle (w : world) :
  wf_store (w_store w) →
  ∃ g e d w',
    withShutdown [] w = Ok (shutdownBackground g e d) w'
    ∧ ∀ t o,
        exec true (w_store w') (close (shutdownBackground g e d)) t o →
        closes t = [e]
        ∧ o = Finished (close_chan e (w_store w'))
        ∧ is_closed (close_chan e (w_store w')) (finishSig (shutdownBackground g e d)) = false
        ∧ cause (close_chan e (w_store w')) (shutdownBackground g e d) = Some ErrTimeout
        ∧ ∀ t2 o2,
            exec true (close_chan e (w_store w')) (shutdownBackground_Done d) t2 o2 →
            closes t2 = [d]
            ∧ o2 = Finished (close_chan d (close_chan e (w_store w')))
            ∧ ∀ σ3, grows (close_chan d (close_chan e (w_store w'))) σ3 →
                    is_closed σ3 (finishSig (shutdownBackground g e d)) = true
                    ∧ cause σ3 (shutdownBackground g e d) = None
                    ∧ ∀ ctx tg og r,
                        Shutdown ctx (shutdownBackground g e d) σ3 tg og r → r = None.
Proof.
  intros Hwf. unfold withShutdown. unfold_M.
  set (σ := w_store w).
  set (d := next σ). set (e := S (next σ)).
  set (σ' := bump (bump σ)).
  exists no_children, e, d, (World σ' (w_pool w)). split; [reflexivity|].
  assert (Hd : is_closed σ' d = false).
  { apply (wf_store_next_open σ); [done | unfold d; lia]. }
  assert (He : is_closed σ' e = false).
  { apply (wf_store_next_open σ); [done | unfold e; lia]. }
  assert (Hde : d ≠ e) by (unfold d, e; lia).
  intros t o H. simpl in H.
  apply exec_inv_go in H as (σ0 & _ & Hσ & σg & tg & og & t1 & _ & Hgo & -> & H).
  rewrite (Hσ eq_refl) in *. clear Hσ σ0.
  assert (Htg : closes tg = []).
  { apply exec_inv_call_group in Hgo as (σ1 & _ & _ & sub & oc & Hsub & Hgo).
    destruct (group_close_again false σ1 no_children sub oc eq_refl Hsub)
      as (-> & σ2 & -> & _).
    destruct Hgo as [(_ & -> & _) | (σ3 & t3 & _ & -> & Hgo)]; [done|].
    apply exec_inv_nil in Hgo as (_ & _ & _ & -> & _). done. }
  apply exec_inv_recv in H as (σ0 & _ & Hσ & H).
  rewrite (Hσ eq_refl) in *. clear Hσ σ0.
  destruct H as [([=] & _) | (_ & t2 & -> & H)].
  apply exec_inv_locked in H as (σ0 & _ & Hσ & tl & ol & Hl & H).
  rewrite (Hσ eq_refl) in *. clear Hσ σ0.
  apply exec_inv_select in Hl as (σ0 & _ & Hσ & Hl).
  rewrite (Hσ eq_refl) in *. clear Hσ σ0.
  rewrite He in Hl. simpl in Hl.
  apply exec_inv_close in Hl as (σ0 & _ & Hσ & Hl).
  rewrite (Hσ eq_refl) in *. clear Hσ σ0.
  destruct Hl as [(He' & _) | (_ & t' & -> & Hl)]; [congruence|].
  apply exec_inv_nil in Hl as (σ0 & _ & Hσ & -> & ->).
  rewrite (Hσ eq_refl) in *. clear Hσ σ0.
  destruct H as [(σ1 & t3 & [= <-] & -> & H) | (Hne & _)];
    [|by destruct (Hne (close_chan e σ'))].
  apply exec_inv_nil in H as (σ0 & _ & Hσ & -> & ->).
  rewrite (Hσ eq_refl) in *. clear Hσ σ0.
  assert (Hd1 : is_closed (close_chan e σ') d = false).
  { destruct (is_closed (close_chan e σ') d) eqn:E; [|done].
    apply is_closed_close_chan_inv in E as [E|E]; congruence. }
  split.
  { rewrite closes_cons. cbn [event_closes].
    change (concat (map event_closes tg)) with (closes tg). by rewrite Htg. }
  split; [done|]. split; [exact Hd1|]. split.
  { simpl. by rewrite Hd1. }
  intros t2 o2 H2. cbn [w_store] in H2.
  change (shutdownBackground_Done d) with (fire_once d ++ []) in H2.
  apply fire_once_exec in H2 as (σa & σb & t' & _ & Hσ & _ & H2 & Hcase).
  rewrite (Hσ eq_refl) in *. clear Hσ σa.
  destruct Hcase as [(Hc & _) | (_ & -> & ->)]; [congruence|].
  apply exec_inv_nil in H2 as (σc & _ & Hσ & -> & ->).
  rewrite (Hσ eq_refl) in *. clear Hσ σc.
  split; [done|]. split; [done|].
  intros σ3 Hg3.
  assert (Hd3 : is_closed σ3 d = true).
  { eapply is_closed_grows; [exact Hg3 | apply is_closed_close_chan]. }
  split; [exact Hd3|]. split.
  { simpl. by rewrite Hd3. }
  intros ctx tg' og' r Hs. simpl in Hs.
  apply shutdown_outcome in Hs as [Hnil _]. apply Hnil. simpl. exact Hd3.
Qed.

Lemma shutdown_leaf_lifecycle_witness :
  ∃ g e d w' t o,
    withShutdown [] init_world = Ok (shutdownBackground g e d) w'
    ∧ run 40 (w_store w') (close (shutdownBackground g e d)) = Some (t, o)
    ∧ closes t = [e]
    ∧ cause (close_chan e (w_store w')) (shutdownBackground g e d) = Some ErrTimeout.
Proof.
  assert (Hwf : wf_store (w_store init_world)).
  { split; simpl; [lia|]. intros c Hc. by apply not_elem_of_empty in Hc. }
  destruct (shutdown_leaf_lifecycle init_world Hwf) as (g & e & d & w' & Hw & Hlife).
  destruct (run 40 (w_store w') (close (shutdownBackground g e d))) as [[t o]|] eqn:E.
  2:{ exfalso. vm_compute in Hw. injection Hw as <- <- <- <-.
      vm_compute in E. discriminate E. }
  destruct (Hlife t o (run_sound 40 true _ _ _ _ E)) as (Hcl & _ & _ & Hcause & _).
  exists g, e, d, w', t, o. by split_and!.
Defined.

(** ** Error leaves side by side *)

Lemma merge_frame bgs w g w' :
  merge bgs w = Ok g w' →
  errs (w_store w') = errs (w_store w) ∧ (next (w_store w) ≤ next (w_store w'))%nat.
Proof.
  intros H. destruct bgs as [|b bgs].
  { simpl in H. unfold_M. by simplify_eq. }
  remember (b :: bgs) as l eqn:El.
  assert (Hl : l ≠ []) by (by subst).
  rewrite (merge_nonempty l w Hl) in H.
  unfold make_chan, make_map, get_store, modify_store, mbind, M_bind, mret, M_ret in H.
  cbn beta iota in H.
  match type of H with
  | context [merge_loop ?d ?m ?i ?bgs ?ss ?w0] =>
      destruct (merge_loop_ok d m bgs i ss w0) as [w1 Hok];
      pose proof (merge_loop_frame d m bgs i ss w0 _ _ Hok) as (_ & Herr & Hn & _)
  end.
  rewrite Hok in H. simplify_eq. simpl in *. split; [done|]. lia.
Qed.

(** A new [err] field is the next free location, and it holds what it was
    given; no other field changes. *)
Lemma new_err_spec err w :
  ∃ w', new_err err w = Ok (next (w_store w)) w'
        ∧ errs (w_store w') !! next (w_store w) = err
        ∧ next (w_store w') = S (next (w_store w))
        ∧ ∀ l, l ≠ next (w_store w) → errs (w_store w') !! l = errs (w_store w) !! l.
Proof.
  unfold_M. eexists. split; [reflexivity|]. simpl.
  destruct err as [e|]; split_and!; try done.
  - apply lookup_insert_eq.
  - intros l Hl. by apply lookup_insert_ne.
  - apply lookup_delete_eq.
  - intros l Hl. by apply lookup_delete_ne.
Qed.

(** X18: an error leaf built with [err] reports [err].  An error group built
    afterwards, over any children, also over that leaf, reports nil until
    the first non-nil [Error(e)], then [e]; neither building the group nor
    reporting to it changes what the leaf reports. *)
Theorem error_leaves_independent (err : option error)
    (cs1 : list (option Background))
    (cs2 : Background → list (option Background)) (w : world) :
  ∃ g1 l1 w1 g2 l2 w2,
    withError err cs1 w = Ok (errBackground g1 l1) w1
    ∧ withErrorGroup (cs2 (errBackground g1 l1)) w1 = Ok (errGroupBackground g2 l2) w2
    ∧ l1 ≠ l2
    ∧ Err (w_store w1) (errBackground g1 l1) = err
    ∧ Err (w_store w2) (errBackground g1 l1) = err
    ∧ Err (w_store w2) (errGroupBackground g2 l2) = None
    ∧ ∀ e, Err (Error l2 (Some e) (w_store w2)) (errGroupBackground g2 l2) = Some e
           ∧ Err (Error l2 (Some e) (w_store w2)) (errBackground g1 l1) = err.
Proof.
  destruct (merge_ok cs1 w) as (g1 & wa & Hm1 & _).
  destruct (new_err_spec err wa) as (w1 & Hnew1 & Hl1 & Hn1 & _).
  set (l1 := next (w_store wa)) in *.
  destruct (merge_ok (cs2 (errBackground g1 l1)) w1) as (g2 & wb & Hm2 & _).
  destruct (merge_frame _ _ _ _ Hm2) as [He2 Hn2].
  destruct (new_err_spec None wb) as (w2 & Hnew2 & Hl2 & _ & Hother).
  set (l2 := next (w_store wb)) in *.
  assert (Hne : l1 ≠ l2) by (unfold l2; lia).
  exists g1, l1, w1, g2, l2, w2.
  split.
  { unfold withError. unfold mbind, M_bind at 1. rewrite Hm1.
    unfold mbind, M_bind. rewrite Hnew1. done. }
  split.
  { unfold withErrorGroup. unfold mbind, M_bind at 1. rewrite Hm2.
    unfold mbind, M_bind. rewrite Hnew2. done. }
  split; [done|]. split; [done|].
  assert (Hkeep : errs (w_store w2) !! l1 = err).
  { rewrite (Hother l1 Hne), He2. exact Hl1. }
  split; [done|]. split; [done|].
  intros e. cbn [Err]. rewrite !Error_lookup.
  rewrite decide_True by done. rewrite decide_False by done.
  split; [|exact Hkeep].
  assert (Hown : match errs (w_store w2) !! l2 with
                 | Some e0 => Some e0
                 | None => Some e
                 end = Some e) by (by rewrite Hl2).
  exact Hown.
Qed.
